(** * A bounded-concurrency TCP echo server: admission, registry, shutdown

    Shallow embedding of [main.go] (the file
    [src/high-performance-go-server.go], and its later revision
    [src/unnamed/part_000]) as an interleaving transition system: one
    labelled step per atomic action of the accept loop, of a session
    handler, of [main] running [Start] and [Shutdown], and of the
    environment (clients, clock).  [Shutdown] is also given as the
    sequential composition of its own steps. *)

From stdpp Require Import gmap strings list fin_maps pretty.
From Stdlib Require Import ZArith Floats.

Local Open Scope Z_scope.

(** ** Values of the Go runtime and standard library used by the server *)

(** What a Go call does: it returns, it panics, or it blocks for ever. *)
Inductive outcome (A : Type) : Type :=
  | Returned (a : A)
  | Panicked (msg : string)
  | Blocked.
Arguments Returned {A} a.
Arguments Panicked {A} msg.
Arguments Blocked {A}.

Definition obind {A B} (x : outcome A) (f : A → outcome B) : outcome B :=
  match x with
  | Returned a => f a
  | Panicked msg => Panicked msg
  | Blocked => Blocked
  end.

Notation "x ←! e ; k" := (obind e (λ x, k))
  (at level 20, e at level 100, k at level 200, right associativity,
   only parsing).

(** The [error] values that reach the server.  Distinct errors may print
    the same text; the code only ever looks at the text ([err.Error()],
    [%v]). *)
Inductive error : Type :=
  | io_EOF
  | io_ErrUnexpectedEOF
  | json_SyntaxError (msg : string)
  | json_UnmarshalTypeError (msg : string)
  | net_ErrClosed
  | os_ErrDeadlineExceeded
  | context_DeadlineExceeded
  | context_Canceled
  | syscall_Errno (text : string).

Definition Error (e : error) : string :=
  match e with
  | io_EOF => "EOF"
  | io_ErrUnexpectedEOF => "unexpected EOF"
  | json_SyntaxError msg => msg
  | json_UnmarshalTypeError msg => "json: cannot unmarshal " +:+ msg
  | net_ErrClosed => "use of closed network connection"
  | os_ErrDeadlineExceeded => "i/o timeout"
  | context_DeadlineExceeded => "context deadline exceeded"
  | context_Canceled => "context canceled"
  | syscall_Errno text => text
  end.

Global Instance error_eq_dec : EqDecision error.
Proof. solve_decision. Defined.

(** A decoded JSON value, the dynamic type behind [interface{}]. *)
#[warnings="-register-all"]
Inductive json : Type :=
  | JNull
  | JBool (b : bool)
  | JNumber (f : float)    (* [float64] *)
  | JString (s : string)
  | JArray (xs : list json)
  | JObject (kvs : list (string * json)).

(** [time.Time] and [time.Duration], in nanoseconds. *)
Definition Time := Z.
Definition Duration := Z.
Definition Second : Duration := 1000000000.

(** ** The data of [main.go] *)

Record Config : Type := mkConfig {
  Port : string;
  ReadTimeout : Duration;
  WriteTimeout : Duration;
  MaxConnections : Z;
  ShutdownTimeout : Duration;
}.

(** [Message] of [high-performance-go-server.go]. *)
Record Message : Type := mkMessage {
  Type_ : string;
  Payload : json;
  Time_ : Time;
}.

(** [net.Conn] values are identified by a number. *)
Definition Conn := nat.

(** One end of an accepted TCP stream, as the server sees it. *)
Record Stream : Type := mkStream {
  closed : bool;                  (* [Close] has been called on it *)
  readDeadline : option Time;     (* set by [SetReadDeadline] *)
  writeDeadline : option Time;    (* set by [SetWriteDeadline] *)
  inbox : list (Message + error); (* what the next [Decode] calls yield *)
  outbox : list Message;          (* what [Encode] has written *)
  stalled : bool;                 (* the peer does not read: writes block *)
}.

Definition newStream : Stream :=
  {| closed := false; readDeadline := None; writeDeadline := None;
     inbox := []; outbox := []; stalled := false |}.

(** The bound listening socket. *)
Record Listener : Type := mkListener {
  l_closed : bool;
  backlog : nat;   (* connection attempts waiting in the OS queue *)
}.

(** The events of [s.logger.Printf]; the format is left out. *)
Inductive LogEntry : Type :=
  | LogStarted (port : string)
  | LogAcceptError (e : error)
  | LogDecodeError (e : error)
  | LogEncodeError (e : error)
  | LogListenerCloseError (e : error)
  | LogConnCloseError (e : error).

(** ** Control points of the goroutines *)

(** [acceptConnections]. *)
Inductive AccPc : Type :=
  | AccIdle               (* [Start] has not spawned it *)
  | AccSelect             (* at the outer [select] *)
  | AccAccept             (* permit acquired, in [s.listener.Accept()] *)
  | AccFailed (e : error) (* [Accept] returned [e], at the inner [select] *)
  | AccRelease            (* error logged, at [<-s.connSem] *)
  | AccReturnedSelect     (* [return] of the outer [case <-s.shutdown] *)
  | AccReturnedAccept.    (* [return] of the inner [case <-s.shutdown] *)

(** [handleConnection]. *)
Inductive HPc : Type :=
  | HStart                (* spawned, before [s.addConnection(conn)] *)
  | HDecode               (* in [decoder.Decode(&msg)] *)
  | HProcess (m : Message)  (* decoded, before [msg.Time = time.Now()] *)
  | HEncode (m : Message)   (* in [encoder.Encode(msg)] *)
  | HDeferClose           (* deferred function: [conn.Close()] *)
  | HDeferRelease         (* deferred function: [<-s.connSem] *)
  | HDeferRemove          (* deferred function: [s.removeConnection(conn)] *)
  | HDone.

(** [main], with the body of [Shutdown] inlined. *)
Inductive MainPc : Type :=
  | MStart                       (* before [server.Start()] *)
  | MFatal (e : error)           (* [log.Fatalf]: process exited *)
  | MWaitSignal                  (* at [<-sigChan] *)
  | SdCloseChan                  (* [close(s.shutdown)] *)
  | SdCloseListener              (* [s.listener.Close()] *)
  | SdLock                       (* [s.connMutex.Lock()] *)
  | SdRange (todo : list Conn)   (* [for conn := range s.conns] *)
  | SdSelect                     (* the final [select] on [ctx.Done()] *)
  | MReturned (r : option error) (* [Shutdown] returned [r]; [main] returns *)
  | MPanicked (msg : string).

(** The [Server] struct (first seven fields), the network and the clock,
    and the goroutines. *)
Record World : Type := mkWorld {
  config : Config;
  listener : option Listener;   (* [nil] before [Start] *)
  connMutex : bool;             (* locked? *)
  conns : gset Conn;            (* [map[net.Conn]struct{}] *)
  shutdown : bool;              (* has the channel been closed? *)
  logger : list LogEntry;
  connSem : nat;                (* elements buffered in the channel *)
  net : gmap Conn Stream;
  clock : Time;
  deadline : option Time;       (* of the context [main] passes to [Shutdown] *)
  mainpc : MainPc;
  acc : AccPc;
  handlers : gmap Conn HPc;
}.

Global Instance AccPc_eq_dec : EqDecision AccPc.
Proof. solve_decision. Defined.
Global Instance json_inhabited : Inhabited json := populate JNull.

(** Field updates. *)
Definition set_listener (v : option Listener) (w : World) : World :=
  mkWorld (config w) v (connMutex w) (conns w) (shutdown w) (logger w)
    (connSem w) (net w) (clock w) (deadline w) (mainpc w) (acc w) (handlers w).
Definition set_connMutex (v : bool) (w : World) : World :=
  mkWorld (config w) (listener w) v (conns w) (shutdown w) (logger w)
    (connSem w) (net w) (clock w) (deadline w) (mainpc w) (acc w) (handlers w).
Definition set_conns (v : gset Conn) (w : World) : World :=
  mkWorld (config w) (listener w) (connMutex w) v (shutdown w) (logger w)
    (connSem w) (net w) (clock w) (deadline w) (mainpc w) (acc w) (handlers w).
Definition set_shutdown (v : bool) (w : World) : World :=
  mkWorld (config w) (listener w) (connMutex w) (conns w) v (logger w)
    (connSem w) (net w) (clock w) (deadline w) (mainpc w) (acc w) (handlers w).
Definition set_logger (v : list LogEntry) (w : World) : World :=
  mkWorld (config w) (listener w) (connMutex w) (conns w) (shutdown w) v
    (connSem w) (net w) (clock w) (deadline w) (mainpc w) (acc w) (handlers w).
Definition set_connSem (v : nat) (w : World) : World :=
  mkWorld (config w) (listener w) (connMutex w) (conns w) (shutdown w)
    (logger w) v (net w) (clock w) (deadline w) (mainpc w) (acc w) (handlers w).
Definition set_net (v : gmap Conn Stream) (w : World) : World :=
  mkWorld (config w) (listener w) (connMutex w) (conns w) (shutdown w)
    (logger w) (connSem w) v (clock w) (deadline w) (mainpc w) (acc w)
    (handlers w).
Definition set_clock (v : Time) (w : World) : World :=
  mkWorld (config w) (listener w) (connMutex w) (conns w) (shutdown w)
    (logger w) (connSem w) (net w) v (deadline w) (mainpc w) (acc w)
    (handlers w).
Definition set_deadline (v : option Time) (w : World) : World :=
  mkWorld (config w) (listener w) (connMutex w) (conns w) (shutdown w)
    (logger w) (connSem w) (net w) (clock w) v (mainpc w) (acc w) (handlers w).
Definition set_mainpc (v : MainPc) (w : World) : World :=
  mkWorld (config w) (listener w) (connMutex w) (conns w) (shutdown w)
    (logger w) (connSem w) (net w) (clock w) (deadline w) v (acc w)
    (handlers w).
Definition set_acc (v : AccPc) (w : World) : World :=
  mkWorld (config w) (listener w) (connMutex w) (conns w) (shutdown w)
    (logger w) (connSem w) (net w) (clock w) (deadline w) (mainpc w) v
    (handlers w).
Definition set_handlers (v : gmap Conn HPc) (w : World) : World :=
  mkWorld (config w) (listener w) (connMutex w) (conns w) (shutdown w)
    (logger w) (connSem w) (net w) (clock w) (deadline w) (mainpc w) (acc w) v.

Definition log (e : LogEntry) (w : World) : World :=
  set_logger (logger w ++ [e]) w.
Definition set_handler (c : Conn) (pc : HPc) (w : World) : World :=
  set_handlers (<[c := pc]> (handlers w)) w.

(** ** [NewServer] *)

(** [make(chan struct{}, n)] panics for a negative [n]; [n = 0] gives an
    unbuffered channel. *)
Definition NewServer (cfg : Config) : outcome World :=
  if MaxConnections cfg <? 0 then Panicked "makechan: size out of range"
  else Returned
    {| config := cfg; listener := None; connMutex := false; conns := ∅;
       shutdown := false; logger := []; connSem := 0; net := ∅;
       clock := 0; deadline := None; mainpc := MStart; acc := AccIdle;
       handlers := ∅ |}.

(** Capacity of [s.connSem]. *)
Definition capacity (w : World) : nat := Z.to_nat (MaxConnections (config w)).

(** ** The statements of the program, as functions on the state *)

(** [close(s.shutdown)]: closing a closed channel panics. *)
Definition close_shutdown (w : World) : outcome World :=
  if shutdown w then Panicked "close of closed channel"
  else Returned (set_shutdown true w).

(** [if err := s.listener.Close(); err != nil { s.logger.Printf(...) }];
    a [nil] listener (no [Start]) is a nil dereference. *)
Definition listener_Close (w : World) : outcome World :=
  match listener w with
  | None => Panicked "invalid memory address or nil pointer dereference"
  | Some l =>
      if l_closed l then Returned (log (LogListenerCloseError net_ErrClosed) w)
      else Returned (set_listener (Some (mkListener true (backlog l))) w)
  end.

(** [conn.Close()]: fails on a stream that is closed already. *)
Definition conn_Close (c : Conn) (w : World) : World * option error :=
  match net w !! c with
  | Some st =>
      if closed st then (w, Some net_ErrClosed)
      else (set_net (<[c := mkStream true (readDeadline st) (writeDeadline st)
                            (inbox st) (outbox st) (stalled st)]> (net w)) w,
            None)
  | None => (w, Some net_ErrClosed)
  end.

(** Body of the loop of [Shutdown]:
    [if err := conn.Close(); err != nil { s.logger.Printf(...) }]. *)
Definition close_logged (c : Conn) (w : World) : World :=
  match conn_Close c w with
  | (w', Some e) => log (LogConnCloseError e) w'
  | (w', None) => w'
  end.

(** [for conn := range s.conns { ... }], in the order [ks] of the
    iteration. *)
Definition close_all (ks : list Conn) (w : World) : World :=
  foldl (λ w c, close_logged c w) w ks.

(** The order in which [range] visits a map is any enumeration of its
    keys. *)
Definition range_order (ks : list Conn) (s : gset Conn) : Prop :=
  NoDup ks ∧ list_to_set ks = s.

Global Instance range_order_dec ks s : Decision (range_order ks s).
Proof. unfold range_order. apply _. Defined.

(** A [context.Context] as [Shutdown] sees it. *)
Inductive Context : Type :=
  | ctx_Background
  | ctx_WithDeadline (d : Time)
  | ctx_Canceled.

(** [ctx.Err()] at time [now]; [Some _] exactly when [ctx.Done()] is
    closed. *)
Definition ctx_Err (ctx : Context) (now : Time) : option error :=
  match ctx with
  | ctx_Background => None
  | ctx_WithDeadline d =>
      if d <=? now then Some context_DeadlineExceeded else None
  | ctx_Canceled => Some context_Canceled
  end.

(** [s.addConnection(conn)] and [s.removeConnection(conn)]: the map
    update, under the lock. *)
Definition addConnection (c : Conn) (w : World) : option World :=
  if connMutex w then None else Some (set_conns ({[c]} ∪ conns w) w).
Definition removeConnection (c : Conn) (w : World) : option World :=
  if connMutex w then None else Some (set_conns (conns w ∖ {[c]}) w).

(** [Shutdown(ctx)], run without interleaving, with [ks] the order of
    the [range] loop. *)
Definition Shutdown (ctx : Context) (ks : list Conn) (w : World)
    : outcome (World * option error) :=
  w1 ←! close_shutdown w;
  w2 ←! listener_Close w1;
  if connMutex w2 then Blocked
  else
    let w3 := close_all ks (set_connMutex true w2) in
    let w4 := set_connMutex false w3 in
    Returned (w4, ctx_Err ctx (clock w4)).

(** ** The transition system *)

(** One label per atomic action; a label carries what the environment or
    the scheduler chooses (the stream accepted, the error returned, the
    order of a map iteration). *)
Inductive Label : Type :=
  (* the environment *)
  | LDial                              (* a client connects: backlog grows *)
  | LSend (c : Conn) (r : Message + error)  (* the peer of [c] acts *)
  | LStall (c : Conn) (b : bool)       (* the peer stops or resumes reading *)
  | LTick (d : Duration)               (* time passes *)
  (* [main] *)
  | LStart                             (* [server.Start()] succeeds *)
  | LStartFail (e : error)             (* [net.Listen] fails *)
  | LSignal                            (* SIGINT or SIGTERM arrives *)
  | LCloseChan
  | LCloseListener
  | LLock (ks : list Conn)
  | LCloseConn
  | LUnlock
  | LSelect
  (* [acceptConnections] *)
  | LAccShutdown                       (* outer [case <-s.shutdown] *)
  | LAcquire                           (* outer [case s.connSem <- struct{}{}] *)
  | LHandoff (c : Conn)                (* the same on an unbuffered channel *)
  | LAccept (c : Conn)                 (* [Accept] returns [c]; [go] handler *)
  | LAcceptErr (e : error)             (* [Accept] returns [e] *)
  | LFailReturn                        (* inner [case <-s.shutdown] *)
  | LFailLog                           (* inner [default]: log *)
  | LAccRelease                        (* inner [default]: [<-s.connSem] *)
  (* [handleConnection(c)] *)
  | LAdd (c : Conn)
  | LDecode (c : Conn)
  | LDecodeClosed (c : Conn)
  | LDecodeTimeout (c : Conn)
  | LStamp (c : Conn)
  | LEncode (c : Conn)
  | LEncodeErr (c : Conn) (e : error)
  | LEncodeTimeout (c : Conn)
  | LClose (c : Conn)
  | LRelease (c : Conn)
  | LRemove (c : Conn).

(** Results of [Decode] a peer can cause: a message, a clean or a
    truncated end of stream, malformed bytes, a reset. *)
Definition from_peer (r : Message + error) : bool :=
  match r with
  | inl _ => true
  | inr (io_EOF | io_ErrUnexpectedEOF | json_SyntaxError _
        | json_UnmarshalTypeError _ | syscall_Errno _) => true
  | inr _ => false
  end.

(** Errors of [Accept]: the listener was closed, or a transient failure
    of the system call. *)
Definition accept_error (l : Listener) (e : error) : bool :=
  match e with
  | net_ErrClosed => l_closed l
  | syscall_Errno _ => negb (l_closed l)
  | _ => false
  end.

(** Errors of a write: the stream was closed, or the peer is gone. *)
Definition write_error (st : Stream) (e : error) : bool :=
  match e with
  | net_ErrClosed => closed st
  | syscall_Errno _ => true
  | _ => false
  end.

Definition set_inbox (v : list (Message + error)) (st : Stream) : Stream :=
  mkStream (closed st) (readDeadline st) (writeDeadline st) v (outbox st)
    (stalled st).
Definition set_outbox (v : list Message) (st : Stream) : Stream :=
  mkStream (closed st) (readDeadline st) (writeDeadline st) (inbox st) v
    (stalled st).
Definition set_stalled (v : bool) (st : Stream) : Stream :=
  mkStream (closed st) (readDeadline st) (writeDeadline st) (inbox st)
    (outbox st) v.

(** [msg.Time = time.Now()]. *)
Definition stamp (now : Time) (m : Message) : Message :=
  mkMessage (Type_ m) (Payload m) now.

(** [Decode] returned [e]:
    [if err.Error() != "EOF" { s.logger.Printf(...) }; return]. *)
Definition decode_failed (c : Conn) (e : error) (w : World) : World :=
  set_handler c HDeferClose
    (if String.eqb (Error e) "EOF" then w else log (LogDecodeError e) w).

(** The process is gone once [main] has returned, exited or panicked. *)
Definition exited (w : World) : bool :=
  match mainpc w with
  | MFatal _ | MReturned _ | MPanicked _ => true
  | _ => false
  end.

Definition exec_env (l : Label) (w : World) : option World :=
  match l with
  | LDial =>
      match listener w with
      | Some (mkListener false n) =>
          Some (set_listener (Some (mkListener false (S n))) w)
      | _ => None
      end
  | LSend c r =>
      if from_peer r then
        st ← net w !! c;
        Some (set_net (<[c := set_inbox (inbox st ++ [r]) st]> (net w)) w)
      else None
  | LStall c b =>
      st ← net w !! c;
      Some (set_net (<[c := set_stalled b st]> (net w)) w)
  | LTick d => if 0 <? d then Some (set_clock (clock w + d) w) else None
  | _ => None
  end.

(** [context.WithTimeout(context.Background(), config.ShutdownTimeout)],
    created by [main] when the signal arrives. *)
Definition main_ctx (w : World) : Context :=
  match deadline w with
  | Some d => ctx_WithDeadline d
  | None => ctx_Background
  end.

Definition exec_main (l : Label) (w : World) : option World :=
  match l, mainpc w with
  | LStart, MStart =>
      Some (set_mainpc MWaitSignal (set_acc AccSelect
             (log (LogStarted (Port (config w)))
               (set_listener (Some (mkListener false 0)) w))))
  | LStartFail e, MStart => Some (set_mainpc (MFatal e) w)
  | LSignal, MWaitSignal =>
      Some (set_mainpc SdCloseChan
             (set_deadline (Some (clock w + ShutdownTimeout (config w))) w))
  | LCloseChan, SdCloseChan =>
      match close_shutdown w with
      | Returned w' => Some (set_mainpc SdCloseListener w')
      | Panicked msg => Some (set_mainpc (MPanicked msg) w)
      | Blocked => None
      end
  | LCloseListener, SdCloseListener =>
      match listener_Close w with
      | Returned w' => Some (set_mainpc SdLock w')
      | Panicked msg => Some (set_mainpc (MPanicked msg) w)
      | Blocked => None
      end
  | LLock ks, SdLock =>
      if connMutex w then None
      else if decide (range_order ks (conns w))
      then Some (set_mainpc (SdRange ks) (set_connMutex true w))
      else None
  | LCloseConn, SdRange (c :: ks) =>
      Some (set_mainpc (SdRange ks) (close_logged c w))
  | LUnlock, SdRange [] => Some (set_mainpc SdSelect (set_connMutex false w))
  | LSelect, SdSelect =>
      Some (set_mainpc (MReturned (ctx_Err (main_ctx w) (clock w))) w)
  | _, _ => None
  end.

Definition exec_acc (l : Label) (w : World) : option World :=
  match l, acc w with
  | LAccShutdown, AccSelect =>
      if shutdown w then Some (set_acc AccReturnedSelect w) else None
  | LAcquire, AccSelect =>
      if decide (connSem w < capacity w)%nat
      then Some (set_acc AccAccept (set_connSem (S (connSem w)) w))
      else None
  | LHandoff c, AccSelect =>
      match capacity w, handlers w !! c with
      | O, Some HDeferRelease =>
          Some (set_acc AccAccept (set_handler c HDeferRemove w))
      | _, _ => None
      end
  | LAccept c, AccAccept =>
      match listener w, handlers w !! c, net w !! c with
      | Some (mkListener false (S n)), None, None =>
          Some (set_acc AccSelect (set_handler c HStart
                 (set_net (<[c := newStream]> (net w))
                   (set_listener (Some (mkListener false n)) w))))
      | _, _, _ => None
      end
  | LAcceptErr e, AccAccept =>
      match listener w with
      | Some l =>
          if accept_error l e then Some (set_acc (AccFailed e) w) else None
      | None => None
      end
  | LFailReturn, AccFailed e =>
      if shutdown w then Some (set_acc AccReturnedAccept w) else None
  | LFailLog, AccFailed e =>
      if shutdown w then None
      else Some (set_acc AccRelease (log (LogAcceptError e) w))
  | LAccRelease, AccRelease =>
      match connSem w with
      | S n => Some (set_acc AccSelect (set_connSem n w))
      | O => None
      end
  | _, _ => None
  end.

Definition exec_handler (l : Label) (w : World) : option World :=
  match l with
  | LAdd c =>
      match handlers w !! c with
      | Some HStart => set_handler c HDecode <$> addConnection c w
      | _ => None
      end
  | LDecode c =>
      match handlers w !! c, net w !! c with
      | Some HDecode, Some st =>
          match inbox st with
          | r :: rest =>
              let w' := set_net (<[c := set_inbox rest st]> (net w)) w in
              Some match r with
                   | inl m => set_handler c (HProcess m) w'
                   | inr e => decode_failed c e w'
                   end
          | [] => None
          end
      | _, _ => None
      end
  | LDecodeClosed c =>
      match handlers w !! c, net w !! c with
      | Some HDecode, Some st =>
          if closed st then Some (decode_failed c net_ErrClosed w) else None
      | _, _ => None
      end
  | LDecodeTimeout c =>
      match handlers w !! c, net w !! c with
      | Some HDecode, Some st =>
          match readDeadline st with
          | Some d =>
              if d <=? clock w
              then Some (decode_failed c os_ErrDeadlineExceeded w)
              else None
          | None => None
          end
      | _, _ => None
      end
  | LStamp c =>
      match handlers w !! c with
      | Some (HProcess m) => Some (set_handler c (HEncode (stamp (clock w) m)) w)
      | _ => None
      end
  | LEncode c =>
      match handlers w !! c, net w !! c with
      | Some (HEncode m), Some st =>
          if closed st || stalled st then None
          else Some (set_handler c HDecode
                 (set_net (<[c := set_outbox (outbox st ++ [m]) st]> (net w)) w))
      | _, _ => None
      end
  | LEncodeErr c e =>
      match handlers w !! c, net w !! c with
      | Some (HEncode m), Some st =>
          if write_error st e
          then Some (set_handler c HDeferClose (log (LogEncodeError e) w))
          else None
      | _, _ => None
      end
  | LEncodeTimeout c =>
      match handlers w !! c, net w !! c with
      | Some (HEncode m), Some st =>
          match writeDeadline st with
          | Some d =>
              if d <=? clock w
              then Some (set_handler c HDeferClose
                     (log (LogEncodeError os_ErrDeadlineExceeded) w))
              else None
          | None => None
          end
      | _, _ => None
      end
  | LClose c =>
      match handlers w !! c with
      | Some HDeferClose =>
          Some (set_handler c HDeferRelease (fst (conn_Close c w)))
      | _ => None
      end
  | LRelease c =>
      match handlers w !! c, connSem w with
      | Some HDeferRelease, S n =>
          Some (set_handler c HDeferRemove (set_connSem n w))
      | _, _ => None
      end
  | LRemove c =>
      match handlers w !! c with
      | Some HDeferRemove => set_handler c HDone <$> removeConnection c w
      | _ => None
      end
  | _ => None
  end.

(** Which goroutine a label belongs to. *)
Inductive Actor : Type := Environment | Main | Acceptor | Handler (c : Conn).

Definition actor (l : Label) : Actor :=
  match l with
  | LDial | LSend _ _ | LStall _ _ | LTick _ => Environment
  | LStart | LStartFail _ | LSignal | LCloseChan | LCloseListener | LLock _
  | LCloseConn | LUnlock | LSelect => Main
  | LAccShutdown | LAcquire | LHandoff _ | LAccept _ | LAcceptErr _
  | LFailReturn | LFailLog | LAccRelease => Acceptor
  | LAdd c | LDecode c | LDecodeClosed c | LDecodeTimeout c | LStamp c
  | LEncode c | LEncodeErr c _ | LEncodeTimeout c | LClose c | LRelease c
  | LRemove c => Handler c
  end.

Definition exec (l : Label) (w : World) : option World :=
  if exited w then None
  else match actor l with
       | Environment => exec_env l w
       | Main => exec_main l w
       | Acceptor => exec_acc l w
       | Handler _ => exec_handler l w
       end.

Definition step (w : World) (l : Label) (w' : World) : Prop :=
  exec l w = Some w'.

(** Executions: [run w tr w'] when the labels [tr], in order, lead from
    [w] to [w']. *)
Inductive run : World → list Label → World → Prop :=
  | run_nil w : run w [] w
  | run_snoc w tr w1 l w2 : run w tr w1 → step w1 l w2 → run w (tr ++ [l]) w2.

(** The states of the server built by [NewServer cfg]. *)
Definition execution (cfg : Config) (tr : list Label) (w : World) : Prop :=
  ∃ w0, NewServer cfg = Returned w0 ∧ run w0 tr w.

Definition reachable (cfg : Config) (w : World) : Prop :=
  ∃ tr, execution cfg tr w.

(** Replays a list of labels. *)
Fixpoint replay (tr : list Label) (w : World) : option World :=
  match tr with
  | [] => Some w
  | l :: tr => w' ← exec l w; replay tr w'
  end.

(** ** Permits, sessions and the registry *)

(** A session holds its permit from the moment it is spawned until its
    deferred [<-s.connSem]. *)
Definition holds_permit (pc : HPc) : bool :=
  match pc with
  | HStart | HDecode | HProcess _ | HEncode _ | HDeferClose
  | HDeferRelease => true
  | HDeferRemove | HDone => false
  end.

Definition held (hs : gmap Conn HPc) : nat :=
  size (filter (λ p, holds_permit p.2 = true) hs).

Definition permit_of (o : option HPc) : nat :=
  match o with
  | Some pc => if holds_permit pc then 1%nat else 0%nat
  | None => 0%nat
  end.

(** The accept loop holds a permit between its send on [s.connSem] and
    either the hand-over to a handler or its own receive. *)
Definition acc_permit (a : AccPc) : nat :=
  match a with
  | AccAccept | AccFailed _ | AccRelease | AccReturnedAccept => 1%nat
  | _ => 0%nat
  end.

(** Accepted connections whose session has not released its permit. *)
Definition active_sessions (w : World) : nat := held (handlers w).

(** Permits acquired and not yet released. *)
Definition outstanding (w : World) : nat :=
  (active_sessions w + acc_permit (acc w))%nat.

(** A session is in the registry between [addConnection] and
    [removeConnection]. *)
Definition registered (o : option HPc) : bool :=
  match o with
  | Some (HDecode | HProcess _ | HEncode _ | HDeferClose | HDeferRelease
         | HDeferRemove) => true
  | _ => false
  end.

(** A session is past its deferred [conn.Close()]. *)
Definition past_close (o : option HPc) : bool :=
  match o with
  | Some (HDeferRelease | HDeferRemove | HDone) => true
  | _ => false
  end.

Definition mark_closed (st : Stream) : Stream :=
  mkStream true (readDeadline st) (writeDeadline st) (inbox st) (outbox st)
    (stalled st).

(** What the loop of [Shutdown] logs for [c]. *)
Definition close_log (c : Conn) (w : World) : list LogEntry :=
  match (conn_Close c w).2 with
  | Some e => [LogConnCloseError e]
  | None => []
  end.

(** Where [main] is, in terms of what it has done to the server. *)
Definition started (pc : MainPc) : bool :=
  match pc with
  | MStart | MFatal _ => false
  | _ => true
  end.
Definition signaled (pc : MainPc) : bool :=
  match pc with
  | SdCloseListener | SdLock | SdRange _ | SdSelect | MReturned _ => true
  | _ => false
  end.
Definition listener_closed (pc : MainPc) : bool :=
  match pc with
  | SdLock | SdRange _ | SdSelect | MReturned _ => true
  | _ => false
  end.
Definition locked (pc : MainPc) : bool :=
  match pc with
  | SdRange _ => true
  | _ => false
  end.

Definition is_closed (l : option Listener) : bool :=
  match l with
  | Some l => l_closed l
  | None => false
  end.

Definition acc_returned (a : AccPc) : bool :=
  match a with
  | AccReturnedSelect | AccReturnedAccept => true
  | _ => false
  end.

(** The invariant of the executions. *)
Record Invariant (w : World) : Prop := mkInvariant {
  inv_started :
    if started (mainpc w) then is_Some (listener w) ∧ acc w ≠ AccIdle
    else listener w = None ∧ acc w = AccIdle;
  inv_signaled : shutdown w = signaled (mainpc w);
  inv_listener : is_closed (listener w) = listener_closed (mainpc w);
  inv_mutex : connMutex w = locked (mainpc w);
  inv_no_panic : ∀ msg, mainpc w ≠ MPanicked msg;
  inv_returned : acc_returned (acc w) = true → shutdown w = true;
  inv_sem : connSem w = outstanding w;
  inv_cap : (connSem w ≤ capacity w)%nat;
  inv_net : ∀ c, handlers w !! c = None ↔ net w !! c = None;
  inv_registry : ∀ c, c ∈ conns w ↔ registered (handlers w !! c) = true;
  inv_closed : ∀ c st,
    past_close (handlers w !! c) = true → net w !! c = Some st →
    closed st = true;
  inv_deadlines : ∀ c st,
    net w !! c = Some st → readDeadline st = None ∧ writeDeadline st = None;
}.

(** The server is up and idle at its outer [select]: started, not shut
    down, nothing waiting in the backlog. *)
Definition serving (w : World) : Prop :=
  mainpc w = MWaitSignal ∧ acc w = AccSelect ∧
  listener w = Some (mkListener false 0) ∧ connMutex w = false.

(** Runs the labels [tr] on the server built by [NewServer cfg]. *)
Definition run_trace (cfg : Config) (tr : list Label) : option World :=
  match NewServer cfg with
  | Returned w0 => replay tr w0
  | _ => None
  end.

(** How many steps the accept loop is from returning, once the server is
    shut down. *)
Definition acc_rank (a : AccPc) : nat :=
  match a with
  | AccIdle => 5
  | AccRelease => 4
  | AccSelect => 3
  | AccAccept => 2
  | AccFailed _ => 1
  | AccReturnedSelect | AccReturnedAccept => 0
  end%nat.

(** [Shutdown] has fired the signal and closed the listener. *)
Definition shut_down (w : World) : Prop :=
  shutdown w = true ∧ is_closed (listener w) = true.

(** ** The life of a session *)

(** What [decoder.Decode(&msg)] returns in the step [l] of the session
    on [c]. *)
Definition decode_result (c : Conn) (l : Label) (w : World)
    : option (Message + error) :=
  match l with
  | LDecode c' =>
      if decide (c' = c) then st ← net w !! c; head (inbox st) else None
  | LDecodeClosed c' =>
      if decide (c' = c) then Some (inr net_ErrClosed) else None
  | LDecodeTimeout c' =>
      if decide (c' = c) then Some (inr os_ErrDeadlineExceeded) else None
  | _ => None
  end.

(** The steps of the loop of [handleConnection(c)]. *)
Definition loop_step (c : Conn) (l : Label) : bool :=
  match l with
  | LDecode c' | LDecodeClosed c' | LDecodeTimeout c' | LStamp c'
  | LEncode c' | LEncodeErr c' _ | LEncodeTimeout c' => bool_decide (c' = c)
  | _ => false
  end.

Definition in_loop (o : option HPc) : bool :=
  match o with
  | Some (HDecode | HProcess _ | HEncode _) => true
  | _ => false
  end.

(** The session has left its loop: it is in, or past, the deferred
    function. *)
Definition exiting (o : option HPc) : bool :=
  match o with
  | Some (HDeferClose | HDeferRelease | HDeferRemove | HDone) => true
  | _ => false
  end.

(** What a session does to the resources it shares. *)
Inductive Lifecycle : Type := EvAdd | EvClose | EvRelease | EvRemove.

Definition lifecycle (c : Conn) (l : Label) : option Lifecycle :=
  match l with
  | LAdd c' => if decide (c' = c) then Some EvAdd else None
  | LClose c' => if decide (c' = c) then Some EvClose else None
  | LRelease c' | LHandoff c' =>
      if decide (c' = c) then Some EvRelease else None
  | LRemove c' => if decide (c' = c) then Some EvRemove else None
  | _ => None
  end.

Definition history (c : Conn) (tr : list Label) : list Lifecycle :=
  omap (lifecycle c) tr.

Definition expected_history (o : option HPc) : list Lifecycle :=
  match o with
  | None | Some HStart => []
  | Some (HDecode | HProcess _ | HEncode _ | HDeferClose) => [EvAdd]
  | Some HDeferRelease => [EvAdd; EvClose]
  | Some HDeferRemove => [EvAdd; EvClose; EvRelease]
  | Some HDone => [EvAdd; EvClose; EvRelease; EvRemove]
  end.

(** The rest of the world, as a session on another stream sees it. *)
Definition elsewhere (c : Conn) (w w' : World) : Prop :=
  (∀ c', c' ≠ c → handlers w' !! c' = handlers w !! c' ∧
                  net w' !! c' = net w !! c') ∧
  conns w' = conns w ∧ connSem w' = connSem w ∧ acc w' = acc w ∧
  mainpc w' = mainpc w ∧ listener w' = listener w ∧
  shutdown w' = shutdown w ∧ connMutex w' = connMutex w.

(** The control flow of [handleConnection(c)]: what a step [l] of the
    session does, from each of its control points. *)
Definition session_flow (c : Conn) (l : Label) (w w' : World) : Prop :=
  match handlers w !! c with
  | Some HStart =>
      l = LAdd c ∧ handlers w' !! c = Some HDecode ∧
      conns w' = {[c]} ∪ conns w
  | Some (HDecode | HProcess _ | HEncode _) =>
      loop_step c l = true ∧
      (in_loop (handlers w' !! c) = true ∨
       handlers w' !! c = Some HDeferClose)
  | Some HDeferClose =>
      l = LClose c ∧ handlers w' !! c = Some HDeferRelease ∧
      net w' = alter mark_closed c (net w)
  | Some HDeferRelease =>
      l = LRelease c ∧ handlers w' !! c = Some HDeferRemove ∧
      S (connSem w') = connSem w
  | Some HDeferRemove =>
      l = LRemove c ∧ handlers w' !! c = Some HDone ∧
      conns w' = conns w ∖ {[c]}
  | Some HDone | None => False
  end.

(** ** Timeouts *)

(** The same configuration with other read and write timeouts. *)
Definition with_timeouts (r wt : Duration) (cfg : Config) : Config :=
  mkConfig (Port cfg) r wt (MaxConnections cfg) (ShutdownTimeout cfg).

Definition set_config (v : Config) (w : World) : World :=
  mkWorld v (listener w) (connMutex w) (conns w) (shutdown w) (logger w)
    (connSem w) (net w) (clock w) (deadline w) (mainpc w) (acc w)
    (handlers w).

(** The steps in which a read or a write deadline expires. *)
Definition is_timeout (l : Label) : bool :=
  match l with
  | LDecodeTimeout _ | LEncodeTimeout _ => true
  | _ => false
  end.

(** The session on [c] waits in [Decode] on an open stream with nothing
    to read. *)
Definition blocked_in_decode (c : Conn) (w : World) : Prop :=
  handlers w !! c = Some HDecode ∧
  ∃ st, net w !! c = Some st ∧ inbox st = [] ∧ closed st = false.

(** The session on [c] waits in [Encode] on an open stream whose peer
    does not read. *)
Definition blocked_in_encode (c : Conn) (w : World) : Prop :=
  ∃ m, handlers w !! c = Some (HEncode m) ∧
  ∃ st, net w !! c = Some st ∧ stalled st = true ∧ closed st = false.

(** [Shutdown] is closing the stream [c]. *)
Definition closing (c : Conn) (w : World) : Prop :=
  ∃ ks, mainpc w = SdRange (c :: ks).

(** ** What [Shutdown] closes, logs and returns *)

(** The failures of [conn.Close()] in the loop of [Shutdown] over
    [ks]. *)
Fixpoint close_failures (ks : list Conn) (w : World)
    : list (Conn * error) :=
  match ks with
  | [] => []
  | c :: ks =>
      match conn_Close c w with
      | (w', Some e) => (c, e) :: close_failures ks w'
      | (w', None) => close_failures ks w'
      end
  end.

(** The errors of closing a connection that a log reports. *)
Definition conn_close_errors (lg : list LogEntry) : list error :=
  omap (λ x, match x with LogConnCloseError e => Some e | _ => None end) lg.

(** The streams after [Close] has been called on each of [ks]. *)
Definition close_streams (ks : list Conn) (nt : gmap Conn Stream)
    : gmap Conn Stream :=
  foldl (λ nt c, alter mark_closed c nt) nt ks.

(** One server with two connections, the first of which has ended its
    session and closed its stream, as the signal arrives. *)
Definition cfg2 : Config :=
  mkConfig "8080" (30 * Second) (30 * Second) 2 (30 * Second).

Definition two_sessions : list Label :=
  [LStart; LDial; LDial; LAcquire; LAccept 1%nat; LAcquire; LAccept 2%nat;
   LAdd 1%nat; LAdd 2%nat; LSend 1%nat (inr io_EOF); LDecode 1%nat;
   LClose 1%nat; LSignal].

(** Whether [conn.Close()] fails on [c]: the stream is closed already. *)
Definition close_fails (nt : gmap Conn Stream) (c : Conn)
    : option (Conn * error) :=
  match nt !! c with
  | Some st => if closed st then Some (c, net_ErrClosed) else None
  | None => Some (c, net_ErrClosed)
  end.

(** * The later revision of [main.go] ([src/unnamed/part_000])

    [Config], [Server], [NewServer], [Start], [acceptConnections],
    [addConnection], [removeConnection], [Shutdown] and [main] are those
    of the first revision.  [Message] has two more fields, and
    [handleConnection] logs the connections and the messages. *)
Module Part000.

(** The line feed. *)
Definition LF : string := String (Ascii.ascii_of_nat 10) "".

Record Message : Type := mkMessage {
  Type_ : string;
  Payload : list (string * json);
    (* [map[string]interface{}]: the entries, in the order [range]
       yields them *)
  Time_ : Time;
  ID : string;
  Source : string;
}.

Section Session.

(** [fmt.Sprintf("%v", value)] for a value that is neither a map nor
    a slice, and [msg.Time.Format(time.RFC3339Nano)]: the formats of
    the standard library are left open. *)
Variable sprint_v : json → string.
Variable RFC3339Nano : Time → string.

(** One iteration of the loop of [prettyPrintJSON], then the loop. *)
Fixpoint prettyPrintEntry (indent key : string) (value : json) : string :=
  match value with
  | JObject v =>
      indent +:+ key +:+ ":" +:+ LF
        +:+ (fix entries (kvs : list (string * json)) : string :=
               match kvs with
               | [] => ""
               | (k, x) :: kvs =>
                   prettyPrintEntry (indent +:+ "  ") k x +:+ entries kvs
               end) v
  | JArray v =>
      indent +:+ key +:+ ": [array of " +:+ pretty (length v)
        +:+ " elements]" +:+ LF
  | _ => indent +:+ key +:+ ": " +:+ sprint_v value +:+ LF
  end.

Fixpoint prettyPrintJSON (data : list (string * json)) (indent : string)
    : string :=
  match data with
  | [] => ""
  | (key, value) :: data =>
      prettyPrintEntry indent key value +:+ prettyPrintJSON data indent
  end.

(** The lines of [s.logger.Printf]. *)
Inductive LogEntry : Type :=
  | LogNewConnection (remoteAddr : string)
  | LogDecodeError (remoteAddr : string) (e : error)
  | LogClosedByClient (remoteAddr : string)
  | LogReceived (remoteAddr id type source time payload : string)
  | LogSendError (remoteAddr : string) (e : error).

(** What the session does, in order. *)
Inductive Action : Type :=
  | DoAdd                        (* [s.addConnection(conn)] *)
  | DoLog (e : LogEntry)
  | DoEncode (m : Message) (r : option error)
                                 (* [encoder.Encode(m)] returned [r] *)
  | DoClose                      (* deferred [conn.Close()] *)
  | DoRelease                    (* deferred [<-s.connSem] *)
  | DoRemove.                    (* deferred [s.removeConnection(conn)] *)

(** What the outside gives to one iteration of the loop: the result of
    [decoder.Decode(&msg)], the reading of [time.Now()], the result of
    [encoder.Encode(msg)]. *)
Record Round : Type := mkRound {
  decoded : Message + error;
  now : Time;
  encoded : option error;
}.

Definition deferred : list Action := [DoClose; DoRelease; DoRemove].

(** [msg.Time = time.Now()]. *)
Definition stamp (t : Time) (msg : Message) : Message :=
  mkMessage (Type_ msg) (Payload msg) t (ID msg) (Source msg).

(** The loop of [handleConnection], then the deferred function; with
    no round left the session waits in [Decode]. *)
Fixpoint session (remoteAddr : string) (rounds : list Round)
    : list Action :=
  match rounds with
  | [] => []
  | r :: rounds =>
      match decoded r with
      | inr err =>
          DoLog (if String.eqb (Error err) "EOF"
                 then LogClosedByClient remoteAddr
                 else LogDecodeError remoteAddr err) :: deferred
      | inl msg =>
          DoLog (LogReceived remoteAddr (ID msg) (Type_ msg) (Source msg)
                   (RFC3339Nano (Time_ msg))
                   (prettyPrintJSON (Payload msg) "║   "))
          :: match encoded r with
             | Some err =>
                 DoEncode (stamp (now r) msg) (Some err)
                 :: DoLog (LogSendError remoteAddr err) :: deferred
             | None =>
                 DoEncode (stamp (now r) msg) None
                 :: session remoteAddr rounds
             end
      end
  end.

Definition handleConnection (remoteAddr : string) (rounds : list Round)
    : list Action :=
  DoAdd :: DoLog (LogNewConnection remoteAddr) :: session remoteAddr rounds.

(** The messages given to [encoder.Encode], in order. *)
Definition responses (tr : list Action) : list Message :=
  omap (λ a, match a with DoEncode m _ => Some m | _ => None end) tr.

(** The messages [decoder.Decode] returned in the rounds the session
    went through: up to the first failure of [Decode] or [Encode]. *)
Fixpoint requests (rounds : list Round) : list (Message * Time) :=
  match rounds with
  | [] => []
  | r :: rounds =>
      match decoded r with
      | inr _ => []
      | inl msg =>
          (msg, now r) :: match encoded r with
                          | Some _ => []
                          | None => requests rounds
                          end
      end
  end.

(** The line feeds in [s]. *)
Fixpoint line_feeds (s : string) : nat :=
  match s with
  | EmptyString => 0%nat
  | String a s =>
      ((if Ascii.eqb a (Ascii.ascii_of_nat 10) then 1 else 0)
       + line_feeds s)%nat
  end.

(** The keys of an object, those of the objects nested in it included;
    the elements of an array are not looked at. *)
Fixpoint keys (value : json) : nat :=
  match value with
  | JObject v =>
      (fix entries (kvs : list (string * json)) : nat :=
         match kvs with
         | [] => 0%nat
         | (_, x) :: kvs => (S (keys x) + entries kvs)%nat
         end) v
  | _ => 0%nat
  end.

(** No key of [value] has a line feed in it, and no value in it that
    is printed with [%v]. *)
Fixpoint one_line (value : json) : bool :=
  match value with
  | JObject v =>
      (fix entries (kvs : list (string * json)) : bool :=
         match kvs with
         | [] => true
         | (k, x) :: kvs =>
             (line_feeds k =? 0)%nat && one_line x && entries kvs
         end) v
  | JArray _ => true
  | _ => (line_feeds (sprint_v value) =? 0)%nat
  end.

(** The round ends the session: [Decode] fails, or [Encode] does. *)
Definition ends (r : Round) : bool :=
  match decoded r, encoded r with
  | inl _, None => false
  | _, _ => true
  end.

(** The statements of the deferred function. *)
Definition is_deferred (a : Action) : bool :=
  match a with
  | DoClose | DoRelease | DoRemove => true
  | _ => false
  end.

(** The line the session logs for the message [msg] it has decoded. *)
Definition received (remoteAddr : string) (msg : Message) : LogEntry :=
  LogReceived remoteAddr (ID msg) (Type_ msg) (Source msg)
    (RFC3339Nano (Time_ msg)) (prettyPrintJSON (Payload msg) "║   ").

End Session.

End Part000.

(** ** Sample executions *)

(** One connection is accepted and registered. *)
Definition one_session : list Label :=
  [LStart; LDial; LAcquire; LAccept 1%nat; LAdd 1%nat].

(** The server is started, then shut down with a client in the
    backlog. *)
Definition shut_with_backlog : list Label :=
  [LStart; LDial; LSignal; LCloseChan; LCloseListener].

(** The first of two sessions reads the end of its stream and runs its
    deferred function to the end. *)
Definition session_ended : list Label :=
  [LStart; LDial; LDial; LAcquire; LAccept 1%nat; LAcquire; LAccept 2%nat;
   LAdd 1%nat; LAdd 2%nat; LSend 1%nat (inr io_EOF); LDecode 1%nat;
   LClose 1%nat; LRelease 1%nat; LRemove 1%nat].


(** The peer of the one session closes its end. *)
Definition peer_closes : list Label :=
  one_session ++ [LSend 1%nat (inr io_EOF)].

(** ** The echo *)

(** What the peer of [c] has sent, in order. *)
Definition frames (c : Conn) (tr : list Label) : list (Message + error) :=
  omap (λ l, match l with
             | LSend c' r => if decide (c' = c) then Some r else None
             | _ => None
             end) tr.

(** The messages at the head of a stream, before the first error. *)
Fixpoint leading (fs : list (Message + error)) : list Message :=
  match fs with
  | inl m :: fs => m :: leading fs
  | _ => []
  end.

(** A message without its time. *)
Definition strip (m : Message) : string * json := (Type_ m, Payload m).

(** Where the session is with what it has read ([consumed]) and written
    ([out]): every message read has its answer, the last one apart
    while it is processed, or when the session has ended on it. *)
Definition echo_state (now : Time) (o : option HPc)
    (consumed : list (Message + error)) (out : list Message) : Prop :=
  Forall (λ m, Time_ m ≤ now) out ∧
  match o with
  | Some (HStart | HDecode) =>
      ∃ ms, consumed = inl <$> ms ∧ strip <$> out = strip <$> ms
  | Some (HProcess m) =>
      ∃ ms, consumed = inl <$> (ms ++ [m]) ∧ strip <$> out = strip <$> ms
  | Some (HEncode m') =>
      ∃ ms m, consumed = inl <$> (ms ++ [m]) ∧ strip m' = strip m ∧
              Time_ m' ≤ now ∧ strip <$> out = strip <$> ms
  | Some (HDeferClose | HDeferRelease | HDeferRemove | HDone) =>
      ∃ ms rest, consumed = (inl <$> ms) ++ rest ∧ (length rest ≤ 1)%nat ∧
                 strip <$> out = strip <$> ms
  | None => True
  end.

Definition echo_inv (c : Conn) (tr : list Label) (w : World) : Prop :=
  match net w !! c with
  | None => frames c tr = []
  | Some st =>
      ∃ consumed, frames c tr = consumed ++ inbox st ∧
                  echo_state (clock w) (handlers w !! c) consumed (outbox st)
  end.

(** The one session receives a message and answers it, seven
    nanoseconds later. *)
Definition echo_once : list Label :=
  one_session ++
  [LSend 1%nat (inl (mkMessage "data" (JString "x") 5)); LTick 7;
   LDecode 1%nat; LStamp 1%nat; LEncode 1%nat].

(** A configuration with no capacity at all. *)
Definition cfg0 : Config :=
  mkConfig "8080" (30 * Second) (30 * Second) 0 (30 * Second).

(** ** [Shutdown] among the goroutines *)

(** [main] is inside [Shutdown]. *)
Definition in_Shutdown (pc : MainPc) : bool :=
  match pc with
  | SdCloseChan | SdCloseListener | SdLock | SdRange _ | SdSelect => true
  | _ => false
  end.

(** The steps [Shutdown] has left, with [n] handles in the registry. *)
Definition Shutdown_steps (pc : MainPc) (n : nat) : nat :=
  match pc with
  | SdCloseChan => n + 5
  | SdCloseListener => n + 4
  | SdLock => n + 3
  | SdRange todo => length todo + 2
  | SdSelect => 1
  | _ => 0
  end%nat.

(** The stream of [c] has been closed. *)
Definition closed_in (w : World) (c : Conn) : Prop :=
  ∃ st, net w !! c = Some st ∧ closed st = true.

(** Where the loop of [Shutdown] is with the handles [ks] it iterates
    on: those it has visited are closed. *)
Definition range_inv (ks : list Conn) (w : World) : Prop :=
  (∀ c, c ∈ ks → is_Some (net w !! c)) ∧
  match mainpc w with
  | SdRange todo => ∀ c, c ∈ ks → c ∈ todo ∨ closed_in w c
  | SdSelect | MReturned _ => ∀ c, c ∈ ks → closed_in w c
  | _ => False
  end.

(** The time that passes in the labels [tr]. *)
Definition elapsed (tr : list Label) : Z :=
  foldr (λ l t, match l with LTick d => d + t | _ => t end) 0 tr.

(** The server as [NewServer] returns it, [Start] not having bound the
    port: only the clock has moved. *)
Definition not_started (w : World) : Prop :=
  listener w = None ∧ acc w = AccIdle ∧ handlers w = ∅ ∧ net w = ∅ ∧
  conns w = ∅ ∧ logger w = [] ∧ connSem w = 0%nat ∧ shutdown w = false ∧
  connMutex w = false ∧ deadline w = None.

(** [Shutdown] is stopped in its loop, with one handle visited. *)
Definition in_range_loop : list Label :=
  two_sessions ++ [LCloseChan; LCloseListener; LLock [1; 2]%nat; LCloseConn;
                   LSend 2%nat (inr io_EOF); LDecode 2%nat; LClose 2%nat;
                   LRelease 2%nat].

(** The port cannot be bound. *)
Definition bind_fails : list Label :=
  [LTick 5; LStartFail (syscall_Errno "address already in use")].

(** A session of the later revision: one message is echoed, then the
    client closes. *)
Definition ping : Part000.Message :=
  Part000.mkMessage "ping"
    [("seq", JNumber 1%float);
     ("tags", JArray [JString "a"; JString "b"]);
     ("from", JObject [("host", JString "h"); ("port", JNumber 9%float)])]
    0 "42" "client".

Definition echo_then_eof : list Part000.Round :=
  [Part000.mkRound (inl ping) 7 None; Part000.mkRound (inr io_EOF) 8 None].

(** Induction on a JSON value, through the entries of the objects. *)
Section json_entries.

Variable P : json → Prop.
Hypothesis Hnull : P JNull.
Hypothesis Hbool : ∀ b, P (JBool b).
Hypothesis Hnumber : ∀ f, P (JNumber f).
Hypothesis Hstring : ∀ s, P (JString s).
Hypothesis Harray : ∀ xs, P (JArray xs).
Hypothesis Hobject : ∀ kvs, Forall (λ kv, P kv.2) kvs → P (JObject kvs).

Fixpoint json_entries_ind (value : json) : P value :=
  match value with
  | JNull => Hnull
  | JBool b => Hbool b
  | JNumber f => Hnumber f
  | JString s => Hstring s
  | JArray xs => Harray xs
  | JObject kvs =>
      Hobject kvs
        ((fix entries (kvs : list (string * json))
            : Forall (λ kv, P kv.2) kvs :=
            match kvs with
            | [] => List.Forall_nil _
            | (k, x) :: kvs =>
                List.Forall_cons _ (k, x) kvs (json_entries_ind x)
                  (entries kvs)
            end) kvs)
  end.

End json_entries.


(** The server is shut down while the accept loop waits in [Accept]:
    the call fails and the loop returns. *)
Definition shut_in_accept : list Label :=
  [LStart; LAcquire; LSignal; LCloseChan; LCloseListener;
   LAcceptErr net_ErrClosed; LFailReturn].

(** * Proofs *)

Local Open Scope nat_scope.

(** ** Counting permits *)

Lemma held_insert hs c pc :
  held (<[c := pc]> hs) + permit_of (hs !! c) = held hs + permit_of (Some pc).
Proof.
  unfold held, permit_of.
  rewrite map_filter_insert. simpl.
  destruct (holds_permit pc) eqn:Hpc.
  - rewrite decide_True by done. rewrite map_size_insert, map_lookup_filter.
    destruct (hs !! c) as [pc0|] eqn:Hc; simpl; [|lia].
    destruct (holds_permit pc0) eqn:H0.
    + rewrite option_guard_True by done. simpl. lia.
    + rewrite option_guard_False by (simpl; congruence). simpl. lia.
  - rewrite decide_False by (simpl; congruence).
    rewrite map_filter_delete, map_size_delete, map_lookup_filter.
    destruct (hs !! c) as [pc0|] eqn:Hc; simpl; [|lia].
    destruct (holds_permit pc0) eqn:H0.
    + rewrite option_guard_True by done. simpl.
      assert (size (filter (λ p : Conn * HPc, holds_permit p.2 = true) hs) ≠ 0);
        [|lia].
      intros Hz. apply map_size_empty_inv in Hz.
      assert (Hl : filter (λ p : Conn * HPc, holds_permit p.2 = true) hs !! c
                   = Some pc0) by (by apply map_lookup_filter_Some).
      rewrite Hz in Hl. by rewrite lookup_empty in Hl.
    + rewrite option_guard_False by (simpl; congruence). simpl. lia.
Qed.

Lemma held_empty : held ∅ = 0.
Proof. unfold held. by rewrite map_filter_empty, map_size_empty. Qed.

(** ** The loop body of [Shutdown] touches the streams and the log only *)

Lemma conn_Close_fst c w :
  (conn_Close c w).1 = set_net (alter mark_closed c (net w)) w.
Proof.
  unfold conn_Close. destruct w as [? ? ? ? ? ? ? N ? ? ? ? ?]; cbn.
  destruct (N !! c) as [st|] eqn:Hc; cbn.
  - destruct st as [[] ? ? ? ? ?]; cbn; unfold set_net; cbn; f_equal.
    + apply map_eq; intros j. destruct (decide (j = c)) as [->|].
      * by rewrite lookup_alter_eq, Hc.
      * by rewrite lookup_alter_ne.
    + apply map_eq; intros j. destruct (decide (j = c)) as [->|].
      * by rewrite lookup_alter_eq, lookup_insert_eq, Hc.
      * by rewrite lookup_alter_ne, lookup_insert_ne.
  - unfold set_net; cbn; f_equal.
    apply map_eq; intros j. destruct (decide (j = c)) as [->|].
    + by rewrite lookup_alter_eq, Hc.
    + by rewrite lookup_alter_ne.
Qed.

Lemma close_logged_eq c w :
  close_logged c w =
  set_logger (logger w ++ close_log c w)
    (set_net (alter mark_closed c (net w)) w).
Proof.
  unfold close_logged, close_log.
  pose proof (conn_Close_fst c w) as H1.
  assert (H2 : logger (conn_Close c w).1 = logger w) by (by rewrite H1).
  destruct (conn_Close c w) as [w' [e|]]; cbn in *.
  - unfold log. by rewrite H2, H1.
  - rewrite app_nil_r, <- H1, <- H2. by destruct w'.
Qed.

(** ** Case analysis of a step *)

Ltac exec_unfold H :=
  unfold exec_env, exec_main, exec_acc, exec_handler, addConnection,
    removeConnection, close_shutdown, listener_Close, decode_failed in H.

(** Splits on every test the step makes, innermost first. *)
Ltac exec_split H :=
  repeat match type of H with
  | None = Some _ => discriminate H
  | Some _ = Some _ => injection H as H
  | _ <$> _ = Some _ => apply fmap_Some in H as (? & H & ?)
  | _ ≫= _ = Some _ => apply bind_Some in H as (? & ? & H)
  | context [match ?x with _ => _ end] =>
      lazymatch x with
      | context [match _ with _ => _ end] => fail
      | _ => destruct x eqn:?
      end
  end.

Ltac step_inv H :=
  unfold step, exec in H;
  destruct (exited _) eqn:?; [discriminate H|];
  match type of H with context [actor ?l] => destruct l end;
  cbn [actor] in H; exec_unfold H; exec_split H; subst;
  rewrite ?conn_Close_fst, ?close_logged_eq in *.

Ltac held_tac :=
  repeat match goal with
  | |- context [held (<[?c := ?pc]> ?hs)] =>
      let H := fresh in
      pose proof (held_insert hs c pc) as H;
      generalize dependent (held (<[c := pc]> hs)); intros
  end;
  repeat match goal with
  | E : ?hs !! ?c = _, H : context [?hs !! ?c] |- _ => rewrite E in H
  end.

Ltac lookup_case c0 c :=
  destruct (decide (c0 = c)) as [->|?];
  [rewrite ?lookup_insert_eq, ?lookup_alter_eq
  |rewrite ?lookup_insert_ne, ?lookup_alter_ne by done].

Ltac lookup_goal c0 :=
  match goal with
  | |- context [<[?c := _]> _ !! c0] => lookup_case c0 c
  | |- context [alter _ ?c _ !! c0] => lookup_case c0 c
  end.

Ltac use_lookups :=
  repeat match goal with
  | E : ?m !! ?c = _ |- context [?m !! ?c] => rewrite E
  | E : ?m !! ?c = _, H : context [?m !! ?c] |- _ => rewrite E in H
  end.

(** Sessions and streams have the same keys. *)
Lemma step_net w l w' :
  step w l w' →
  (∀ c, handlers w !! c = None ↔ net w !! c = None) →
  ∀ c, handlers w' !! c = None ↔ net w' !! c = None.
Proof.
  intros H. step_inv H; cbn; intros I c0; try apply I.
  all: pose proof (I c0) as I0; lookup_goal c0; try done.
  all: use_lookups; cbn; rewrite ?fmap_None; intuition congruence.
Qed.

(** No stream ever gets a deadline. *)
Lemma step_deadlines w l w' :
  step w l w' →
  (∀ c st, net w !! c = Some st →
           readDeadline st = None ∧ writeDeadline st = None) →
  ∀ c st, net w' !! c = Some st →
          readDeadline st = None ∧ writeDeadline st = None.
Proof.
  intros H. step_inv H; cbn; intros I c0 st0; try apply I.
  all: lookup_goal c0; try apply I.
  all: try (intros [= <-]; cbn; eauto).
  all: rewrite ?fmap_Some; try (intros (st1 & ? & ->); cbn; eauto).
Qed.

(** Where [main] is determines the flags it has set. *)
Lemma step_control w l w' :
  step w l w' →
  (if started (mainpc w) then is_Some (listener w) ∧ acc w ≠ AccIdle
   else listener w = None ∧ acc w = AccIdle) ∧
  shutdown w = signaled (mainpc w) ∧
  is_closed (listener w) = listener_closed (mainpc w) ∧
  connMutex w = locked (mainpc w) ∧
  (∀ msg, mainpc w ≠ MPanicked msg) ∧
  (acc_returned (acc w) = true → shutdown w = true) →
  (if started (mainpc w') then is_Some (listener w') ∧ acc w' ≠ AccIdle
   else listener w' = None ∧ acc w' = AccIdle) ∧
  shutdown w' = signaled (mainpc w') ∧
  is_closed (listener w') = listener_closed (mainpc w') ∧
  connMutex w' = locked (mainpc w') ∧
  (∀ msg, mainpc w' ≠ MPanicked msg) ∧
  (acc_returned (acc w') = true → shutdown w' = true).
Proof.
  intros H. destruct w as [cfg lis mu cs sd lg sem nt clk dl mpc ac hs].
  cbn in *. step_inv H; cbn in *; subst.
  all: intros (I1 & I2 & I3 & I4 & I5 & I6); cbn in *.
  all: try (destruct mpc; cbn in * ).
  all: repeat match goal with
       | H : _ ∧ _ |- _ => destruct H
       | H : Some _ = None |- _ => discriminate H
       | H : is_Some None |- _ => by destruct H
       end.
  all: repeat split; try done; try (by eexists); try (intros; congruence).
Qed.

(** The channel buffers one element per permit in use, and never more
    than its capacity. *)
Lemma step_sem w l w' :
  step w l w' →
  (started (mainpc w) = false → acc w = AccIdle) →
  connSem w = outstanding w ∧ connSem w ≤ capacity w →
  connSem w' = outstanding w' ∧ connSem w' ≤ capacity w'.
Proof.
  unfold outstanding, active_sessions, capacity.
  intros H. step_inv H; cbn; intros I1 [Hs Hc].
  all: try (split; [lia|done]).
  all: try (held_tac; cbn in *; split; lia).
  rewrite I1 in Hs by done. by split.
Qed.

(** The registry holds exactly the sessions between their
    [addConnection] and their [removeConnection]. *)
Lemma step_registry w l w' :
  step w l w' →
  (∀ c, c ∈ conns w ↔ registered (handlers w !! c) = true) →
  ∀ c, c ∈ conns w' ↔ registered (handlers w' !! c) = true.
Proof.
  intros H. step_inv H; cbn; intros I c0; try apply I.
  all: pose proof (I c0) as I0.
  all: rewrite ?elem_of_union, ?elem_of_difference, ?elem_of_singleton.
  all: lookup_case c0 c; use_lookups; cbn in *; try done.
  all: intuition congruence.
Qed.

(** A session past its deferred [conn.Close()] has a closed stream. *)
Lemma step_closed w l w' :
  step w l w' →
  (∀ c st, past_close (handlers w !! c) = true → net w !! c = Some st →
           closed st = true) →
  ∀ c st, past_close (handlers w' !! c) = true → net w' !! c = Some st →
          closed st = true.
Proof.
  intros H. step_inv H; cbn; intros I c0 st0; try apply I.
  all: pose proof (I c0) as I0.
  all: lookup_case c0 c; use_lookups; cbn in *; try done; try apply I0.
  all: rewrite ?fmap_Some.
  all: try (intros _ (st1 & _ & ->); done).
  all: intros Hp [= <-]; cbn; by eapply I0.
Qed.

Lemma invariant_step w l w' : step w l w' → Invariant w → Invariant w'.
Proof.
  intros H [I1 I2 I3 I4 I5 I6 I7 I8 I9 I10 I11 I12].
  destruct (step_control w l w' H) as (J1 & J2 & J3 & J4 & J5 & J6); [done|].
  destruct (step_sem w l w' H) as [J7 J8]; [|done|].
  { intros Hs. rewrite Hs in I1. by destruct I1. }
  constructor; try done.
  - by apply (step_net w l w' H).
  - by apply (step_registry w l w' H).
  - by apply (step_closed w l w' H).
  - by apply (step_deadlines w l w' H).
Qed.

Lemma invariant_NewServer cfg w : NewServer cfg = Returned w → Invariant w.
Proof.
  unfold NewServer. destruct (MaxConnections cfg <? 0)%Z; [done|].
  intros [= <-]. constructor; try (cbn; done).
  cbn. lia.
Qed.

Lemma invariant_run w tr w' : run w tr w' → Invariant w → Invariant w'.
Proof. induction 1; eauto using invariant_step. Qed.

Lemma invariant_reachable cfg w : reachable cfg w → Invariant w.
Proof.
  intros (tr & w0 & H0 & Hrun).
  eauto using invariant_run, invariant_NewServer.
Qed.




(** ** Executions *)

Lemma run_app w1 tr1 w2 tr2 w3 :
  run w1 tr1 w2 → run w2 tr2 w3 → run w1 (tr1 ++ tr2) w3.
Proof.
  intros H1 H2. induction H2 as [|w2 tr2 w3 l w4 _ IH Hs].
  - by rewrite app_nil_r.
  - rewrite app_assoc. eapply run_snoc; eauto.
Qed.

Lemma run_one w l w' : step w l w' → run w [l] w'.
Proof. intros H. apply (run_snoc w [] w l w'); [constructor | done]. Qed.

Lemma replay_run tr w w' : replay tr w = Some w' → run w tr w'.
Proof.
  revert w. induction tr as [|l tr IH]; intros w; cbn.
  - intros [= <-]. constructor.
  - destruct (exec l w) as [w1|] eqn:E; cbn; [|done].
    intros H. apply (run_app w [l] w1 tr w'); [by apply run_one | by apply IH].
Qed.

Lemma run_cons_inv w l tr w' :
  run w (l :: tr) w' → ∃ w1, step w l w1 ∧ run w1 tr w'.
Proof.
  remember (l :: tr) as tr0 eqn:E. intros H. revert l tr E.
  induction H as [|w tr0 w1 l0 w2 H IH Hs]; intros l tr E; [done|].
  destruct tr0 as [|l1 tr1]; cbn in E.
  - injection E as <- <-. inversion H; subst.
    + exists w2. split; [done | constructor].
    + by destruct tr.
  - injection E as -> <-. destruct (IH _ _ eq_refl) as (w3 & H3 & H4).
    exists w3. split; [done|]. eapply run_snoc; eauto.
Qed.

Lemma step_config w l w' : step w l w' → config w' = config w.
Proof. intros H. by step_inv H. Qed.

Lemma run_config w tr w' : run w tr w' → config w' = config w.
Proof.
  induction 1 as [|w tr w1 l w2 _ IH Hs]; [done|].
  by rewrite (step_config _ _ _ Hs).
Qed.

Lemma execution_config cfg tr w : execution cfg tr w → config w = cfg.
Proof.
  intros (w0 & H0 & Hrun). rewrite (run_config _ _ _ Hrun).
  unfold NewServer in H0. destruct (MaxConnections cfg <? 0)%Z; [done|].
  by injection H0 as <-.
Qed.

Lemma execution_invariant cfg tr w : execution cfg tr w → Invariant w.
Proof. intros H. apply (invariant_reachable cfg). by exists tr. Qed.

Lemma execution_run cfg tr w tr' w' :
  execution cfg tr w → run w tr' w' → execution cfg (tr ++ tr') w'.
Proof.
  intros (w0 & H0 & Hrun) H. exists w0. split; [done|].
  by apply (run_app w0 tr w tr' w').
Qed.

(** ** Admission *)

Lemma held_pos hs c pc :
  hs !! c = Some pc → holds_permit pc = true → 0 < held hs.
Proof.
  intros Hc Hp. unfold held.
  assert (Hl : filter (λ p : Conn * HPc, holds_permit p.2 = true) hs !! c
               = Some pc) by (by apply map_lookup_filter_Some).
  destruct (size _) eqn:Hz; [|lia].
  apply map_size_empty_inv in Hz. rewrite Hz in Hl.
  by rewrite lookup_empty in Hl.
Qed.

(** One more connection: dial, acquire, accept, register. *)
Lemma admit_one w :
  Invariant w → serving w → connSem w < capacity w →
  ∃ c w', run w [LDial; LAcquire; LAccept c; LAdd c] w' ∧ serving w' ∧
          active_sessions w' = S (active_sessions w) ∧
          size (conns w') = S (size (conns w)).
Proof.
  intros I (Hm & Ha & Hl & Hmu) Hcap.
  set (c := fresh (dom (handlers w))).
  assert (Hc : handlers w !! c = None).
  { apply not_elem_of_dom. apply is_fresh. }
  assert (Hn : net w !! c = None) by (by apply (inv_net w I)).
  assert (Hr : c ∉ conns w).
  { rewrite (inv_registry w I), Hc. done. }
  clearbody c. clear I. unfold capacity in Hcap.
  destruct w as [cfg lis mu cs sd lg sem nt clk dl mpc ac hs].
  cbn in *. subst.
  exists c. eexists. split; [apply replay_run|].
  - unfold exec, exec_acc, exec_handler, capacity; cbn.
    rewrite decide_True by done. cbn. rewrite Hc, Hn. cbn.
    rewrite lookup_insert_eq. cbn. reflexivity.
  - repeat split; unfold active_sessions; cbn.
    + rewrite insert_insert_eq.
      pose proof (held_insert hs c HDecode) as Hh. rewrite Hc in Hh.
      cbn in Hh. lia.
    + rewrite size_union by set_solver. rewrite size_singleton. lia.
Qed.

Lemma NewServer_returned cfg :
  (0 ≤ MaxConnections cfg)%Z → ∃ w0, NewServer cfg = Returned w0.
Proof.
  intros H. unfold NewServer.
  destruct (MaxConnections cfg <? 0)%Z eqn:E; [lia | by eexists].
Qed.

Lemma serving_sem w : Invariant w → serving w → connSem w = active_sessions w.
Proof.
  intros I (_ & Ha & _). rewrite (inv_sem w I). unfold outstanding.
  rewrite Ha. cbn. lia.
Qed.

(** Any number of sessions up to the capacity can be open at once. *)
Lemma admit_many cfg N :
  (0 ≤ MaxConnections cfg)%Z → (Z.of_nat N ≤ MaxConnections cfg)%Z →
  ∃ tr w, execution cfg tr w ∧ serving w ∧ active_sessions w = N ∧
          size (conns w) = N.
Proof.
  intros Hpos. induction N as [|N IH]; intros HN.
  - destruct (NewServer_returned cfg Hpos) as [w0 H0].
    assert (Hs : ∃ w, replay [LStart] w0 = Some w ∧ serving w ∧
                      active_sessions w = 0 ∧ size (conns w) = 0).
    { unfold NewServer in H0. destruct (MaxConnections cfg <? 0)%Z; [done|].
      injection H0 as <-. eexists. split; [reflexivity|]. by cbn. }
    destruct Hs as (w & Hr & Hs).
    exists [LStart], w. split; [|done].
    exists w0. split; [done | by apply replay_run].
  - destruct IH as (tr & w & He & Hs & Ha & Hz); [lia|].
    pose proof (execution_invariant _ _ _ He) as I.
    destruct (admit_one w I Hs) as (c & w' & Hrun & Hs' & Ha' & Hz').
    { rewrite (serving_sem w I Hs), Ha. unfold capacity.
      rewrite (execution_config _ _ _ He). lia. }
    exists (tr ++ [LDial; LAcquire; LAccept c; LAdd c]), w'.
    split; [by eapply execution_run|]. repeat split; try apply Hs'; lia.
Qed.

(** With every permit in the hands of a session, a step that is not a
    release accepts nothing and leaves the sessions as many. *)
Lemma step_full w l w' :
  step w l w' → Invariant w → active_sessions w = capacity w →
  (∀ c, l ≠ LRelease c) →
  (∀ c, l ≠ LAccept c) ∧ active_sessions w' = capacity w'.
Proof.
  intros H I. pose proof (inv_sem w I) as Hs. pose proof (inv_cap w I) as Hc.
  revert Hs Hc. clear I. unfold outstanding, active_sessions, capacity.
  step_inv H; cbn; intros Hs Hc Hf Hl.
  all: try (split; [done | lia]).
  all: try (held_tac; cbn in *; split; [done | lia]).
  all: try (by destruct (Hl c)).
  all: exfalso.
  - match goal with E : handlers w !! c = Some _ |- _ =>
      pose proof (held_pos _ _ _ E eq_refl) end.
    match goal with E : capacity w = 0 |- _ => unfold capacity in E end. lia.
  - lia.
Qed.

Lemma run_full w tr w' :
  run w tr w' → Invariant w → active_sessions w = capacity w →
  (∀ c, LRelease c ∉ tr) →
  (∀ c, LAccept c ∉ tr) ∧ active_sessions w' = capacity w'.
Proof.
  induction 1 as [|w tr w1 l w2 Hrun IH Hs]; intros I Hf Hl.
  - split; [|done]. intros c. apply not_elem_of_nil.
  - destruct IH as [IH1 IH2]; [done | done | |].
    { intros c Hc. apply (Hl c). rewrite elem_of_app. by left. }
    destruct (step_full w1 l w2 Hs) as [H1 H2]; [|done| |].
    { by apply (invariant_run w tr w1). }
    { intros c ->. apply (Hl c). rewrite elem_of_app, list_elem_of_singleton.
      by right. }
    split; [|done]. intros c. rewrite elem_of_app, list_elem_of_singleton.
    intros [Hc | Hc]; [by apply (IH1 c) | by apply (H1 c)].
Qed.

(** C1. In every execution of the server built with capacity
    [MaxConnections], the permits acquired and not yet released never
    exceed [MaxConnections]; any number [N] of sessions up to the
    capacity can be open at once; and when the sessions hold all the
    permits, no connection is accepted until a session releases its
    permit. *)
Theorem admission_gate_bound cfg tr w :
  execution cfg tr w →
  (Z.of_nat (outstanding w) ≤ MaxConnections cfg)%Z ∧
  (∀ N : nat, (Z.of_nat N ≤ MaxConnections cfg)%Z →
     ∃ tr' w', execution cfg tr' w' ∧ active_sessions w' = N ∧
               size (conns w') = N) ∧
  (Z.of_nat (active_sessions w) = MaxConnections cfg →
   ∀ tr' w', run w tr' w' → (∀ c, LRelease c ∉ tr') → ∀ c, LAccept c ∉ tr').
Proof.
  intros He. pose proof (execution_invariant _ _ _ He) as I.
  pose proof (execution_config _ _ _ He) as Hcfg.
  assert (Hpos : (0 ≤ MaxConnections cfg)%Z).
  { destruct He as (w0 & H0 & _). unfold NewServer in H0.
    destruct (MaxConnections cfg <? 0)%Z eqn:E; [done | lia]. }
  split; [|split].
  - rewrite <- (inv_sem w I). pose proof (inv_cap w I) as Hc.
    unfold capacity in Hc. rewrite Hcfg in Hc. lia.
  - intros N HN. destruct (admit_many cfg N Hpos HN) as (tr' & w' & ? & ? & ?).
    by exists tr', w'.
  - intros Hf tr' w' Hrun Hl.
    apply (run_full w tr' w' Hrun I); [|done].
    unfold capacity. rewrite Hcfg. lia.
Qed.


Lemma run_trace_execution cfg tr w :
  run_trace cfg tr = Some w → execution cfg tr w.
Proof.
  unfold run_trace. destruct (NewServer cfg) as [w0| |] eqn:E; [|done..].
  intros H. exists w0. split; [done | by apply replay_run].
Qed.

(** ** After shutdown *)

Lemma step_shut_down w l w' :
  step w l w' → Invariant w → shut_down w → shut_down w'.
Proof.
  unfold shut_down. intros H I. pose proof (inv_signaled w I) as Hs.
  revert Hs. clear I.
  step_inv H; cbn; intros Hs [H1 H2]; try done; try (by split).
  all: try (rewrite H1 in *; done).
  all: split; [done|].
  all: match goal with E : listener _ = _ |- _ => by rewrite E end.
Qed.

Lemma run_shut_down w tr w' :
  run w tr w' → Invariant w → shut_down w → shut_down w'.
Proof.
  induction 1; eauto using step_shut_down, invariant_run.
Qed.

(** Once shut down, no step accepts, and every step of the accept loop
    brings it closer to its [return]. *)
Lemma step_after_shutdown w l w' :
  step w l w' → Invariant w → shut_down w →
  (∀ c, l ≠ LAccept c) ∧
  (actor l = Acceptor → acc_rank (acc w') < acc_rank (acc w)).
Proof.
  unfold shut_down. intros H I.
  pose proof (inv_sem w I) as Hs. pose proof (inv_cap w I) as Hc.
  revert Hs Hc. clear I. unfold outstanding, active_sessions.
  step_inv H; cbn; intros Hs Hc [H1 H2].
  all: try (split; [done | done || lia]).
Qed.

Lemma run_after_shutdown w tr w' :
  run w tr w' → Invariant w → shut_down w → ∀ c, LAccept c ∉ tr.
Proof.
  induction 1 as [|w tr w1 l w2 Hrun IH Hs]; intros I Hd c.
  - apply not_elem_of_nil.
  - rewrite elem_of_app, list_elem_of_singleton. intros [Hc | Hc].
    + by apply (IH I Hd c).
    + destruct (step_after_shutdown w1 l w2 Hs) as [H1 _].
      * by apply (invariant_run w tr w1).
      * by apply (run_shut_down w tr w1).
      * by apply (H1 c).
Qed.

(** Once shut down, the accept loop is never stuck before its [return]. *)
Lemma acceptor_progress w :
  Invariant w → shut_down w → exited w = false →
  acc_returned (acc w) = false →
  ∃ l w', actor l = Acceptor ∧ step w l w'.
Proof.
  intros I [H1 H2] He Hr.
  pose proof (inv_started w I) as Hst. pose proof (inv_signaled w I) as Hsg.
  pose proof (inv_sem w I) as Hsem. unfold outstanding in Hsem.
  rewrite H1 in Hsg.
  assert (Hs : started (mainpc w) = true) by (by destruct (mainpc w)).
  rewrite Hs in Hst. destruct Hst as [[l Hl] Hidle].
  rewrite Hl in H2. cbn in H2. unfold step, exec. rewrite He.
  destruct (acc w) as [| | |e| | |] eqn:Ha; try done.
  - exists LAccShutdown. eexists. split; [done|]. cbn. unfold exec_acc.
    by rewrite Ha, H1.
  - exists (LAcceptErr net_ErrClosed). eexists. split; [done|]. cbn.
    unfold exec_acc. rewrite Ha, Hl. cbn. by rewrite H2.
  - exists LFailReturn. eexists. split; [done|]. cbn. unfold exec_acc.
    by rewrite Ha, H1.
  - cbn in Hsem. destruct (connSem w) as [|n] eqn:Hn; [lia|].
    exists LAccRelease. eexists. split; [done|]. cbn. unfold exec_acc.
    by rewrite Ha, Hn.
Qed.

(** C2. After [Shutdown] has fired the signal and closed the listener,
    the accept loop accepts no connection, whatever waits in the
    backlog: each of its steps brings it closer to one of its two
    [return]s, and it is never stuck before it. *)
Theorem no_accept_after_shutdown cfg tr w :
  execution cfg tr w → shut_down w →
  ∀ tr' w', run w tr' w' →
    (∀ c, LAccept c ∉ tr') ∧
    (∀ l w'', step w' l w'' → actor l = Acceptor →
       acc_rank (acc w'') < acc_rank (acc w') ∧
       ∀ c, l ≠ LAccept c) ∧
    (acc_rank (acc w') = 0 ↔ acc_returned (acc w') = true) ∧
    (exited w' = false → acc_returned (acc w') = false →
       ∃ l w'', actor l = Acceptor ∧ step w' l w'').
Proof.
  intros He Hd tr' w' Hrun.
  pose proof (execution_invariant _ _ _ He) as I.
  pose proof (invariant_run _ _ _ Hrun I) as I'.
  pose proof (run_shut_down _ _ _ Hrun I Hd) as Hd'.
  split; [|split; [|split]].
  - by apply (run_after_shutdown w tr' w').
  - intros l w'' Hs Ha.
    destruct (step_after_shutdown w' l w'' Hs I' Hd') as [H1 H2]. auto.
  - by destruct (acc w').
  - by apply acceptor_progress.
Qed.


(** ** A failed [Accept] *)



(** ** Decode failures *)

Lemma step_decode_failure w l w' c e :
  step w l w' → handlers w !! c = Some HDecode →
  decode_result c l w = Some (inr e) →
  handlers w' !! c = Some HDeferClose ∧
  logger w' = (if decide (Error e = "EOF") then logger w
               else logger w ++ [LogDecodeError e]) ∧
  elsewhere c w w'.
Proof.
  unfold elsewhere. intros H. step_inv H; cbn; try done.
  all: intros Hc; case_decide; try done; subst; intros Hd.
  all: repeat match goal with
       | E : net _ !! _ = Some _ |- _ => rewrite E in Hd; cbn in Hd
       | E : inbox _ = _ |- _ => rewrite E in Hd; cbn in Hd
       end; simplify_eq/=.
  all: repeat match goal with
       | E : String.eqb _ _ = true |- _ => apply String.eqb_eq in E
       | E : String.eqb _ _ = false |- _ => apply String.eqb_neq in E
       end.
  all: rewrite lookup_insert_eq; split; [done|].
  all: split;
    [first [done | by rewrite decide_True by done
           | by rewrite decide_False by done]|].
  all: split; [|by repeat split].
  all: intros c' Hc'; by rewrite ?lookup_insert_ne by done.
Qed.


(** Splits on whether the step is by the session on [c]. *)
Ltac same_session c :=
  match goal with
  | |- context [<[?c' := _]> _ !! c] =>
      destruct (decide (c' = c)) as [->|?];
      [rewrite ?lookup_insert_eq
      |rewrite ?lookup_insert_ne by done;
       rewrite ?bool_decide_eq_false_2 by done;
       rewrite ?decide_False by done]
  end.

(** A session that has left its loop never takes a step of it again. *)
Lemma step_exiting w l w' c :
  step w l w' → exiting (handlers w !! c) = true →
  exiting (handlers w' !! c) = true ∧ loop_step c l = false.
Proof.
  intros H. step_inv H; cbn; intros He; try (by split).
  all: same_session c; try (by split).
  all: match goal with E : handlers _ !! _ = _ |- _ => by rewrite E in He end.
Qed.

Lemma run_exiting w tr w' c :
  run w tr w' → exiting (handlers w !! c) = true →
  exiting (handlers w' !! c) = true ∧ ∀ l, l ∈ tr → loop_step c l = false.
Proof.
  induction 1 as [|w tr w1 l w2 Hrun IH Hs]; intros He.
  - split; [done|]. intros l Hl. by apply elem_of_nil in Hl.
  - destruct (IH He) as [H1 H2].
    destruct (step_exiting w1 l w2 c Hs H1) as [H3 H4].
    split; [done|]. intros l0. rewrite elem_of_app, list_elem_of_singleton.
    intros [Hl | ->]; [by apply H2 | done].
Qed.

(** C9. A [Decode] that returns an error ends the session: the handler
    goes to its deferred function and never decodes or encodes again.
    The clean end of stream ([io.EOF], whose text is ["EOF"]) is not
    logged; an error with any other text is logged, once.  Nothing of
    the other sessions, of the registry, of the semaphore or of the
    accept loop changes. *)
Theorem decode_failure_handling cfg tr w l w' c e :
  execution cfg tr w → step w l w' →
  handlers w !! c = Some HDecode →
  decode_result c l w = Some (inr e) →
  handlers w' !! c = Some HDeferClose ∧
  (e = io_EOF → logger w' = logger w) ∧
  (Error e ≠ "EOF" → logger w' = logger w ++ [LogDecodeError e]) ∧
  elsewhere c w w' ∧
  (∀ tr' w'', run w' tr' w'' → ∀ l', l' ∈ tr' → loop_step c l' = false).
Proof.
  intros _ Hs Hc Hd.
  destruct (step_decode_failure w l w' c e Hs Hc Hd) as (H1 & H2 & H3).
  split; [done|]. split; [|split; [|split; [done|]]].
  - intros ->. by rewrite H2.
  - intros Hne. by rewrite H2, decide_False.
  - intros tr' w'' Hrun. apply (run_exiting w' tr' w'' c Hrun).
    by rewrite H1.
Qed.

(** ** The lifecycle of a session *)

Lemma step_history w l w' c :
  step w l w' →
  expected_history (handlers w' !! c) =
  expected_history (handlers w !! c) ++ option_list (lifecycle c l).
Proof.
  intros H. step_inv H; cbn; rewrite ?app_nil_r; try done.
  all: same_session c; cbn; rewrite ?app_nil_r; try done.
  all: try (rewrite decide_True by done; cbn).
  all: match goal with E : handlers _ !! _ = _ |- _ => rewrite E end.
  all: done.
Qed.

Lemma execution_history cfg tr w c :
  execution cfg tr w → history c tr = expected_history (handlers w !! c).
Proof.
  intros (w0 & H0 & Hrun).
  assert (Hi : expected_history (handlers w0 !! c) = []).
  { unfold NewServer in H0. destruct (MaxConnections cfg <? 0)%Z; [done|].
    by injection H0 as <-. }
  clear H0. induction Hrun as [|w0 tr w1 l w2 Hrun IH Hs]; [done|].
  unfold history in *. rewrite omap_app, (IH Hi).
  rewrite (step_history w1 l w2 c Hs).
  f_equal; cbn; by destruct (lifecycle c l).
Qed.

(** The control flow of [handleConnection(c)]: what its own step does,
    from each control point. *)
Lemma session_step w l w' c :
  step w l w' → actor l = Handler c → session_flow c l w w'.
Proof.
  unfold session_flow. intros H. step_inv H; cbn; try done.
  all: intros [= <-].
  all: repeat match goal with E : handlers _ !! _ = _ |- _ => rewrite E end.
  all: rewrite ?lookup_insert_eq, ?bool_decide_eq_true_2 by done.
  all: try (by repeat split).
  all: try (split; [done|]; by (left + right)).
Qed.

(** A step of anyone else leaves the session on [c] where it is; the
    spawning of the session and the hand-over of an unbuffered semaphore
    apart. *)
Lemma other_step w l w' c :
  step w l w' → actor l ≠ Handler c → l ≠ LHandoff c → l ≠ LAccept c →
  handlers w' !! c = handlers w !! c.
Proof.
  intros H. step_inv H; cbn; try done.
  all: intros Ha Hh Hacc; rewrite lookup_insert_ne; [done|].
  all: intros E; subst; first [by apply Ha | by apply Hh | by apply Hacc].
Qed.

(** In an execution the semaphore is never used as a rendez-vous. *)
Lemma no_handoff w l w' c : step w l w' → Invariant w → l ≠ LHandoff c.
Proof.
  intros H I. pose proof (inv_sem w I) as Hs. pose proof (inv_cap w I) as Hc.
  revert Hs Hc. clear I. unfold outstanding, active_sessions.
  step_inv H; cbn; try done. intros Hs Hc _.
  match goal with E : handlers w !! _ = Some _ |- _ =>
    pose proof (held_pos _ _ _ E eq_refl) end.
  lia.
Qed.

Lemma session_step_main w l w' c :
  step w l w' → actor l = Handler c →
  mainpc w' = mainpc w ∧ connMutex w' = connMutex w.
Proof. intros H. by step_inv H. Qed.

Lemma exited_mainpc w w' : mainpc w' = mainpc w → exited w' = exited w.
Proof. unfold exited. by intros ->. Qed.

(** Each statement of the deferred function can run when it is reached;
    [removeConnection] waits for the lock. *)
Lemma defer_enabled w c :
  Invariant w → exited w = false →
  (handlers w !! c = Some HStart → connMutex w = false →
     ∃ w', step w (LAdd c) w') ∧
  (handlers w !! c = Some HDeferClose → ∃ w', step w (LClose c) w') ∧
  (handlers w !! c = Some HDeferRelease → ∃ w', step w (LRelease c) w') ∧
  (handlers w !! c = Some HDeferRemove → connMutex w = false →
     ∃ w', step w (LRemove c) w').
Proof.
  intros I Hx. unfold step, exec. rewrite Hx. cbn.
  unfold addConnection, removeConnection. repeat split.
  - intros -> ->. by eexists.
  - intros ->. by eexists.
  - intros Hc. rewrite Hc.
    pose proof (inv_sem w I) as Hs. unfold outstanding, active_sessions in Hs.
    pose proof (held_pos _ _ _ Hc eq_refl).
    destruct (connSem w); [lia | by eexists].
  - intros -> ->. by eexists.
Qed.

(** [Shutdown] gives the lock back: from inside its loop, [main] alone
    reaches the [Unlock]. *)
Lemma mutex_released todo : ∀ w,
  mainpc w = SdRange todo →
  ∃ tr w', run w tr w' ∧ connMutex w' = false ∧ exited w' = false ∧
           handlers w' = handlers w.
Proof.
  induction todo as [|c todo IH]; intros w Hm.
  - exists [LUnlock]. eexists. split; [apply run_one|].
    + unfold step, exec, exited. rewrite Hm. cbn. unfold exec_main.
      by rewrite Hm.
    + done.
  - destruct (IH (set_mainpc (SdRange todo) (close_logged c w)))
      as (tr & w' & Hrun & H1 & H2 & H3); [done|].
    exists (LCloseConn :: tr), w'. split; [|split; [done|split; [done|]]].
    + apply (run_app w [LCloseConn]
               (set_mainpc (SdRange todo) (close_logged c w)) tr w'); [|done].
      apply run_one.
      unfold step, exec, exited. rewrite Hm. cbn. unfold exec_main.
      by rewrite Hm.
    + rewrite H3. by rewrite close_logged_eq.
Qed.

Lemma remove_completes w c :
  Invariant w → exited w = false → handlers w !! c = Some HDeferRemove →
  ∃ tr w', run w tr w' ∧ handlers w' !! c = Some HDone.
Proof.
  intros I Hx Hc. destruct (connMutex w) eqn:Hmu.
  - pose proof (inv_mutex w I) as Hl. rewrite Hmu in Hl.
    destruct (mainpc w) as [| | | | | |todo| | |] eqn:Hm; try done.
    destruct (mutex_released todo w Hm) as (tr & w1 & Hrun & H1 & H2 & H3).
    pose proof (invariant_run _ _ _ Hrun I) as I1.
    destruct (defer_enabled w1 c I1 H2) as (_ & _ & _ & Hd).
    destruct Hd as [w2 Hs]; [by rewrite H3 | done |].
    exists (tr ++ [LRemove c]), w2. split; [by eapply run_snoc|].
    pose proof (session_step w1 _ w2 c Hs eq_refl) as Hn.
    unfold session_flow in Hn. rewrite H3, Hc in Hn. tauto.
  - destruct (defer_enabled w c I Hx) as (_ & _ & _ & Hd).
    destruct (Hd Hc Hmu) as [w2 Hs].
    exists [LRemove c], w2. split; [by apply run_one|].
    pose proof (session_step w _ w2 c Hs eq_refl) as Hn.
    unfold session_flow in Hn. rewrite Hc in Hn. tauto.
Qed.

Lemma release_completes w c :
  Invariant w → exited w = false → handlers w !! c = Some HDeferRelease →
  ∃ tr w', run w tr w' ∧ handlers w' !! c = Some HDone.
Proof.
  intros I Hx Hc.
  destruct (defer_enabled w c I Hx) as (_ & _ & Hd & _).
  destruct (Hd Hc) as [w1 Hs].
  pose proof (session_step w _ w1 c Hs eq_refl) as Hn.
  unfold session_flow in Hn. rewrite Hc in Hn.
  destruct (session_step_main w _ w1 c Hs eq_refl) as [Hm _].
  destruct (remove_completes w1 c) as (tr & w2 & Hrun & H2).
  - by eapply invariant_step.
  - by rewrite (exited_mainpc w w1).
  - tauto.
  - exists (LRelease c :: tr), w2. split; [|done].
    apply (run_app w [LRelease c] w1 tr w2); [by apply run_one | done].
Qed.

(** A session in its deferred function can always run it to the end. *)
Lemma session_completes w c :
  Invariant w → exited w = false → exiting (handlers w !! c) = true →
  ∃ tr w', run w tr w' ∧ handlers w' !! c = Some HDone.
Proof.
  intros I Hx He.
  destruct (handlers w !! c) as [[| | | | | | |]|] eqn:Hc; try done.
  - destruct (defer_enabled w c I Hx) as (_ & Hd & _ & _).
    destruct (Hd Hc) as [w1 Hs].
    pose proof (session_step w _ w1 c Hs eq_refl) as Hn.
  unfold session_flow in Hn. rewrite Hc in Hn.
    destruct (session_step_main w _ w1 c Hs eq_refl) as [Hm _].
    destruct (release_completes w1 c) as (tr & w2 & Hrun & H2).
    + by eapply invariant_step.
    + by rewrite (exited_mainpc w w1).
    + tauto.
    + exists (LClose c :: tr), w2. split; [|done].
      apply (run_app w [LClose c] w1 tr w2); [by apply run_one | done].
  - by apply release_completes.
  - by apply remove_completes.
  - exists [], w. split; [constructor | done].
Qed.

(** C4. An accepted connection's handler first adds the handle to the
    registry; whichever way it leaves its loop (end of stream, decode
    error, encode error, stream closed by shutdown) it goes to the
    deferred function, which closes the stream, then releases the
    permit, then removes the handle, each once; no statement of it can
    be stuck for ever; a finished session is closed, unregistered and
    holds no permit. *)
Theorem session_lifecycle cfg tr w c :
  execution cfg tr w →
  history c tr = expected_history (handlers w !! c) ∧
  (c ∈ conns w ↔ registered (handlers w !! c) = true) ∧
  (past_close (handlers w !! c) = true →
     ∃ st, net w !! c = Some st ∧ closed st = true) ∧
  (∀ l w', step w l w' → actor l = Handler c → session_flow c l w w') ∧
  (∀ l w', step w l w' → actor l ≠ Handler c → l ≠ LAccept c →
     handlers w' !! c = handlers w !! c) ∧
  (handlers w !! c = Some HDone →
     history c tr = [EvAdd; EvClose; EvRelease; EvRemove] ∧
     (c ∉ conns w) ∧ permit_of (handlers w !! c) = 0 ∧
     ∃ st, net w !! c = Some st ∧ closed st = true) ∧
  (exited w = false → exiting (handlers w !! c) = true →
     ∃ tr' w', run w tr' w' ∧ handlers w' !! c = Some HDone).
Proof.
  intros He. pose proof (execution_invariant _ _ _ He) as I.
  pose proof (execution_history cfg tr w c He) as Hh.
  assert (Hcl : past_close (handlers w !! c) = true →
                ∃ st, net w !! c = Some st ∧ closed st = true).
  { intros Hp. destruct (net w !! c) as [st|] eqn:Hn.
    - exists st. split; [done|]. by apply (inv_closed w I c).
    - apply (inv_net w I) in Hn. by rewrite Hn in Hp. }
  split; [done|]. split; [apply (inv_registry w I)|]. split; [done|].
  split; [|split; [|split]].
  - intros l w' Hs Ha. by apply session_step.
  - intros l w' Hs Ha Hacc. apply (other_step w l w' c Hs Ha); [|done].
    by apply (no_handoff w l w').
  - intros Hc. rewrite Hh, Hc. split; [done|]. split; [|split; [done|]].
    + rewrite (inv_registry w I), Hc. done.
    + apply Hcl. by rewrite Hc.
  - intros Hx Hex. by apply session_completes.
Qed.

(** ** Timeouts *)

Lemma step_no_timeout w l w' :
  step w l w' → Invariant w → is_timeout l = false.
Proof.
  intros H I. pose proof (inv_deadlines w I) as Hd. revert Hd. clear I.
  step_inv H; cbn; try done; intros Hd.
  all: match goal with E : net _ !! _ = Some _ |- _ =>
         destruct (Hd _ _ E) end; congruence.
Qed.

Lemma run_no_timeout w tr w' :
  run w tr w' → Invariant w → ∀ l, l ∈ tr → is_timeout l = false.
Proof.
  induction 1 as [|w tr w1 l w2 Hrun IH Hs]; intros I l0.
  - intros Hl. by apply elem_of_nil in Hl.
  - rewrite elem_of_app, list_elem_of_singleton. intros [Hl | ->].
    + by apply IH.
    + apply (step_no_timeout w1 l w2 Hs). by apply (invariant_run w tr w1).
Qed.

(** The steps do not read [ReadTimeout] and [WriteTimeout]. *)
Lemma step_with_timeouts w l w' r wt :
  step w l w' →
  step (set_config (with_timeouts r wt (config w)) w) l
       (set_config (with_timeouts r wt (config w)) w').
Proof.
  intros H. destruct w as [cfg lis mu cs sd lg sem nt clk dl mpc ac hs].
  cbn. step_inv H.
  all: cbn in *; subst.
  all: unfold step, exec, exec_env, exec_main, exec_acc, exec_handler,
         addConnection, removeConnection, close_shutdown, listener_Close,
         decode_failed, capacity, exited in *; cbn in *.
  all: repeat match goal with
       | E : ?x = _ |- context [?x] => rewrite E; cbn
       end.
  all: try done.
  all: rewrite ?close_logged_eq, ?conn_Close_fst; cbn.
  all: unfold close_log, conn_Close; cbn; try done.
  all: by destruct (nt !! _) as [[[] ? ? ? ? ?]|].
Qed.

Lemma run_with_timeouts w tr w' r wt :
  run w tr w' →
  run (set_config (with_timeouts r wt (config w)) w) tr
      (set_config (with_timeouts r wt (config w)) w').
Proof.
  induction 1 as [|w tr w1 l w2 Hrun IH Hs]; [constructor|].
  eapply run_snoc; [done|]. rewrite <- (run_config _ _ _ Hrun).
  by apply step_with_timeouts.
Qed.

Lemma execution_with_timeouts cfg tr w r wt :
  execution cfg tr w →
  execution (with_timeouts r wt cfg) tr (set_config (with_timeouts r wt cfg) w).
Proof.
  intros (w0 & H0 & Hrun).
  exists (set_config (with_timeouts r wt cfg) w0). split.
  - unfold NewServer in *. cbn.
    destruct (MaxConnections cfg <? 0)%Z; [done|]. by injection H0 as <-.
  - assert (Hc : config w0 = cfg).
    { unfold NewServer in H0. destruct (MaxConnections cfg <? 0)%Z; [done|].
      by injection H0 as <-. }
    rewrite <- Hc. by apply run_with_timeouts.
Qed.


Ltac other_conn c :=
  repeat match goal with
  | |- context [<[?c' := _]> _ !! c] =>
      rewrite (lookup_insert_ne _ c' c) by congruence
  | |- context [alter _ ?c' _ !! c] =>
      rewrite (lookup_alter_ne _ _ c' c) by congruence
  end.

(** A session waiting in [Decode] has no step of its own, and stays
    there until its peer sends or [Shutdown] closes the stream. *)
Lemma blocked_decode_step w l w' c :
  step w l w' → Invariant w → blocked_in_decode c w →
  actor l ≠ Handler c ∧
  (blocked_in_decode c w' ∨ (∃ r, l = LSend c r) ∨
   (l = LCloseConn ∧ closing c w)).
Proof.
  unfold blocked_in_decode, closing.
  intros H I. pose proof (inv_deadlines w I c) as Hd. revert Hd. clear I.
  step_inv H; cbn; intros Hd (Hc & st & Hn & Hi & Hcl).
  all: try (split; [done|]; left; split; [done|]; by exists st).
  all: match goal with
       | |- context [<[?c' := _]> _] => destruct (decide (c' = c)) as [->|Hne]
       | |- context [alter _ ?c' _] => destruct (decide (c' = c)) as [->|Hne]
       end.
  all: try (destruct (Hd _ Hn); congruence).
  all: try (split; [done || congruence|]; left; other_conn c;
            split; [done|]; by exists st).
  - split; [done|]. right. left. by eexists.
  - split; [done|]. left. split; [done|]. rewrite lookup_insert_eq.
    eexists. split; [done|]. cbn. split; congruence.
  - split; [done|]. right. right. split; [done|]. by eexists.
Qed.

(** A session waiting in [Encode] on a stalled stream can only fail on
    an error of the connection, and stays there until its peer reads
    again or resets, or [Shutdown] closes the stream. *)
Lemma blocked_encode_step w l w' c :
  step w l w' → Invariant w → blocked_in_encode c w →
  (actor l = Handler c → ∃ t, l = LEncodeErr c (syscall_Errno t)) ∧
  (blocked_in_encode c w' ∨ l = LStall c false ∨
   (l = LCloseConn ∧ closing c w) ∨
   ∃ t, l = LEncodeErr c (syscall_Errno t)).
Proof.
  unfold blocked_in_encode, closing.
  intros H I. pose proof (inv_deadlines w I c) as Hd. revert Hd. clear I.
  step_inv H; cbn; intros Hd (m0 & Hc & st & Hn & Hi & Hcl).
  all: try (split; [done|]; left; exists m0; split; [done|]; by exists st).
  all: match goal with
       | |- context [<[?c' := _]> _] => destruct (decide (c' = c)) as [->|Hne]
       | |- context [alter _ ?c' _] => destruct (decide (c' = c)) as [->|Hne]
       end.
  all: try (destruct (Hd _ Hn); congruence).
  all: try (split; [done || congruence|]; left; other_conn c;
            exists m0; split; [done|]; by exists st).
  all: repeat match goal with
       | E : net _ !! _ = Some ?s |- _ =>
           rewrite E in Hn; injection Hn as ->
       end.
  - split; [done|]. left. exists m0. split; [done|].
    rewrite lookup_insert_eq. eexists. by split.
  - split; [done|]. destruct b; [|by right; left]. left.
    exists m0. split; [done|]. rewrite lookup_insert_eq. eexists. by split.
  - split; [done|]. right. right. left. split; [done|]. by eexists.
  - rewrite Hi, Hcl in *. done.
  - destruct e; cbn in *; try congruence.
    split; [by eexists|]. right. right. right. by eexists.
Qed.

(** C10. [ReadTimeout] and [WriteTimeout] are never applied: no stream
    ever has a read or write deadline, no [Decode] or [Encode] ever
    times out, and the executions are the same whatever the two values.
    So a session waiting in [Decode] stays there, however much time
    passes, until its peer sends something or [Shutdown] closes the
    stream; and a session waiting in [Encode] for a peer that does not
    read stays there until the peer reads again or resets, or [Shutdown]
    closes the stream. *)
Theorem timeouts_never_applied cfg tr w :
  execution cfg tr w →
  (∀ c st, net w !! c = Some st →
     readDeadline st = None ∧ writeDeadline st = None) ∧
  (∀ l, l ∈ tr → is_timeout l = false) ∧
  (∀ r wt, execution (with_timeouts r wt cfg) tr
             (set_config (with_timeouts r wt cfg) w)) ∧
  (∀ c l w', blocked_in_decode c w → step w l w' →
     actor l ≠ Handler c ∧
     (blocked_in_decode c w' ∨ (∃ r, l = LSend c r) ∨
      (l = LCloseConn ∧ closing c w))) ∧
  (∀ c l w', blocked_in_encode c w → step w l w' →
     (actor l = Handler c → ∃ t, l = LEncodeErr c (syscall_Errno t)) ∧
     (blocked_in_encode c w' ∨ l = LStall c false ∨
      (l = LCloseConn ∧ closing c w) ∨
      ∃ t, l = LEncodeErr c (syscall_Errno t))).
Proof.
  intros He. pose proof (execution_invariant _ _ _ He) as I.
  split; [apply (inv_deadlines w I)|]. split; [|split; [|split]].
  - destruct He as (w0 & H0 & Hrun).
    apply (run_no_timeout w0 tr w Hrun). by apply (invariant_NewServer cfg).
  - intros r wt. by apply execution_with_timeouts.
  - intros c l w' Hb Hs. by apply blocked_decode_step.
  - intros c l w' Hb Hs. by apply blocked_encode_step.
Qed.



(** ** [Shutdown], run on its own *)

Lemma close_failures_net ks : ∀ w1 w2,
  net w1 = net w2 → close_failures ks w1 = close_failures ks w2.
Proof.
  induction ks as [|c ks IH]; intros w1 w2 Hn; cbn; [done|].
  unfold conn_Close. rewrite Hn.
  destruct (net w2 !! c) as [[[] ? ? ? ? ?]|]; cbn.
  - f_equal. by apply IH.
  - by apply IH.
  - f_equal. by apply IH.
Qed.

Lemma close_all_eq ks : ∀ w,
  close_all ks w =
  set_logger
    (logger w ++ ((λ p, LogConnCloseError p.2) <$> close_failures ks w))
    (set_net (close_streams ks (net w)) w).
Proof.
  unfold close_all, close_streams.
  induction ks as [|c ks IH]; intros w; cbn.
  - rewrite app_nil_r. by destruct w.
  - rewrite IH, close_logged_eq. unfold close_log.
    pose proof (conn_Close_fst c w) as H1.
    destruct (conn_Close c w) as [w1 [e|]]; cbn in *; subst w1; cbn.
    + rewrite <- app_assoc. cbn.
      by rewrite (close_failures_net ks _
                    (set_net (alter mark_closed c (net w)) w)).
    + rewrite app_nil_r.
      rewrite (close_failures_net ks _
                 (set_net (alter mark_closed c (net w)) w)) by done.
      by destruct w.
Qed.

Lemma close_streams_lookup ks : ∀ nt c,
  close_streams ks nt !! c =
  (if decide (c ∈ ks) then mark_closed else id) <$> nt !! c.
Proof.
  unfold close_streams. induction ks as [|k ks IH]; intros nt c; cbn.
  - rewrite decide_False by apply not_elem_of_nil. by destruct (nt !! c).
  - rewrite IH. destruct (decide (k = c)) as [->|Hne].
    + rewrite lookup_alter_eq, (decide_True (P := c ∈ c :: ks))
        by apply list_elem_of_here.
      destruct (nt !! c) as [st|]; [|done]. cbn. by case_decide.
    + rewrite lookup_alter_ne by done.
      destruct (decide (c ∈ ks)) as [Hin|Hin].
      * by rewrite decide_True by (by apply list_elem_of_further).
      * rewrite decide_False; [done|]. rewrite elem_of_cons.
        intros [?|?]; congruence.
Qed.

Lemma conn_close_errors_app l1 l2 :
  conn_close_errors (l1 ++ l2) = conn_close_errors l1 ++ conn_close_errors l2.
Proof. apply omap_app. Qed.

Lemma conn_close_errors_failures (fs : list (Conn * error)) :
  conn_close_errors ((λ p, LogConnCloseError p.2) <$> fs) = snd <$> fs.
Proof. induction fs as [|[c e] fs IH]; cbn; [done | by rewrite <- IH]. Qed.

(** What [Shutdown] does when it returns. *)
Lemma Shutdown_returned ctx ks w w' r :
  Shutdown ctx ks w = Returned (w', r) →
  shutdown w = false ∧ connMutex w = false ∧ shutdown w' = true ∧
  r = ctx_Err ctx (clock w) ∧
  net w' = close_streams ks (net w) ∧
  conn_close_errors (logger w') =
    conn_close_errors (logger w) ++ (snd <$> close_failures ks w) ∧
  handlers w' = handlers w ∧ acc w' = acc w ∧ conns w' = conns w ∧
  connSem w' = connSem w ∧ connMutex w' = false.
Proof.
  unfold Shutdown, close_shutdown, listener_Close.
  destruct (shutdown w) eqn:Hs; [done|]. cbn.
  destruct (listener w) as [l|] eqn:Hl; [|done].
  destruct (l_closed l); cbn; destruct (connMutex w) eqn:Hm; try done.
  all: intros [= <- <-]; rewrite close_all_eq; cbn.
  all: rewrite ?conn_close_errors_app, ?conn_close_errors_failures; cbn.
  all: rewrite ?app_nil_r.
  all: repeat split; try done.
  all: by rewrite (close_failures_net ks _ w).
Qed.





(** The closes that fail are those of the streams closed before the
    loop. *)
Lemma close_failures_spec ks : ∀ w,
  NoDup ks → close_failures ks w = omap (close_fails (net w)) ks.
Proof.
  induction ks as [|c ks IH]; intros w Hnd; cbn; [done|].
  apply NoDup_cons in Hnd as [Hc Hnd].
  assert (Hk : ∀ nt', (∀ k, k ≠ c → nt' !! k = net w !! k) →
               omap (close_fails nt') ks = omap (close_fails (net w)) ks).
  { intros nt' Hnt. clear IH Hnd. induction ks as [|k ks IH]; cbn; [done|].
    rewrite IH by (intros Hin; apply Hc; by apply list_elem_of_further).
    unfold close_fails at 1 3. rewrite Hnt; [done|].
    intros ->. apply Hc. apply list_elem_of_here. }
  unfold conn_Close, close_fails at 1.
  destruct (net w !! c) as [[[] ? ? ? ? ?]|] eqn:E; cbn.
  - f_equal. by apply IH.
  - rewrite IH by done. cbn. apply Hk. intros k Hne.
    by rewrite lookup_insert_ne.
  - f_equal. by apply IH.
Qed.

(** C5, as amended. The loop of [Shutdown] calls [Close] on every one
    of the [k] registered handles, whatever fails: each of their streams
    is closed when it returns, the others are untouched.  Each failure
    is logged, none left out; none is returned: the result of
    [Shutdown] is that of the check of the context alone. *)
Theorem Shutdown_closes_all ctx ks w w' r :
  range_order ks (conns w) → Shutdown ctx ks w = Returned (w', r) →
  length ks = size (conns w) ∧
  (∀ c st, c ∈ conns w → net w !! c = Some st →
     net w' !! c = Some (mark_closed st)) ∧
  (∀ c, c ∉ conns w → net w' !! c = net w !! c) ∧
  conn_close_errors (logger w') =
    conn_close_errors (logger w) ++ (snd <$> omap (close_fails (net w)) ks) ∧
  r = ctx_Err ctx (clock w).
Proof.
  intros [Hnd Hset] H.
  pose proof (Shutdown_returned ctx ks w w' r H)
    as (_ & _ & _ & -> & Hn & Hl & _).
  assert (Hin : ∀ c, c ∈ ks ↔ c ∈ conns w).
  { intros c. rewrite <- Hset. by rewrite elem_of_list_to_set. }
  split; [|split; [|split; [|split; [|done]]]].
  - rewrite <- Hset. symmetry. by apply size_list_to_set.
  - intros c st Hc Hst. rewrite Hn, close_streams_lookup, Hst.
    by rewrite decide_True by (by apply Hin).
  - intros c Hc. rewrite Hn, close_streams_lookup.
    rewrite decide_False by (by rewrite Hin). by destruct (net w !! c).
  - by rewrite Hl, close_failures_spec.
Qed.

(** C5, as stated, fails: a close fails, is logged, and [Shutdown]
    returns [nil]. *)
Lemma Shutdown_drops_close_failures :
  ∃ w w', run_trace cfg2 two_sessions = Some w ∧
          range_order [1; 2] (conns w) ∧
          Shutdown ctx_Background [1; 2] w = Returned (w', None) ∧
          close_failures [1; 2] w = [(1, net_ErrClosed)] ∧
          conn_close_errors (logger w') = [net_ErrClosed].
Proof.
  eexists _, _. split; [vm_compute; reflexivity|].
  split; [|split; [|split]].
  - split; [|vm_compute; reflexivity].
    apply NoDup_cons. split; [|apply NoDup_singleton].
    by rewrite list_elem_of_singleton.
  - vm_compute. reflexivity.
  - vm_compute. reflexivity.
  - vm_compute. reflexivity.
Qed.

(** ** The shutdown signal *)





(** * The later revision: the echo *)

(** C3. For every message the session handler decodes, the message it
    encodes in response has the kind, the payload, the identifier and
    the source of the request; only the time is overwritten, with the
    reading of the clock after the decode. *)
Theorem echo_overwrites_time_only
    (sprint_v : json → string) (RFC3339Nano : Time → string)
    (remoteAddr : string) (rounds : list Part000.Round) :
  Forall2
    (λ (resp : Part000.Message) (req : Part000.Message * Time),
       Part000.Type_ resp = Part000.Type_ req.1 ∧
       Part000.Payload resp = Part000.Payload req.1 ∧
       Part000.ID resp = Part000.ID req.1 ∧
       Part000.Source resp = Part000.Source req.1 ∧
       Part000.Time_ resp = req.2)
    (Part000.responses
       (Part000.handleConnection sprint_v RFC3339Nano remoteAddr rounds))
    (Part000.requests rounds).
Proof.
  unfold Part000.handleConnection, Part000.responses. cbn.
  induction rounds as [|r rounds IH]; cbn; [constructor|].
  destruct (Part000.decoded r) as [msg|err]; cbn; [|constructor].
  destruct (Part000.encoded r) as [err|]; cbn.
  - constructor; [done | constructor].
  - constructor; [done | apply IH].
Qed.

(** * The theorems at sample executions *)

Lemma admission_gate_bound_witness :
  ∃ w, execution cfg2 one_session w ∧
       (Z.of_nat (outstanding w) ≤ MaxConnections cfg2)%Z.
Proof.
  eexists. split; [apply run_trace_execution; vm_compute; reflexivity|].
  refine (proj1 (admission_gate_bound cfg2 one_session _ _)).
  apply run_trace_execution. vm_compute. reflexivity.
Defined.

Lemma no_accept_after_shutdown_witness :
  ∃ w, execution cfg2 shut_with_backlog w ∧ shut_down w ∧
       ∀ tr' w', run w tr' w' → ∀ c, LAccept c ∉ tr'.
Proof.
  eexists. split; [apply run_trace_execution; vm_compute; reflexivity|].
  split; [split; vm_compute; reflexivity|].
  intros tr' w' Hrun.
  refine (proj1 (no_accept_after_shutdown cfg2 shut_with_backlog _ _ _
                   tr' w' Hrun)).
  - apply run_trace_execution. vm_compute. reflexivity.
  - split; vm_compute; reflexivity.
Defined.

Lemma session_lifecycle_witness :
  ∃ w, execution cfg2 session_ended w ∧
       handlers w !! 1 = Some HDone ∧
       history 1 session_ended = [EvAdd; EvClose; EvRelease; EvRemove] ∧
       1 ∉ conns w.
Proof.
  eexists. split; [apply run_trace_execution; vm_compute; reflexivity|].
  split; [vm_compute; reflexivity|].
  refine (let H := proj1 (proj2 (proj2 (proj2 (proj2 (proj2
            (session_lifecycle cfg2 session_ended _ 1 _)))))) _ in
          conj (proj1 H) (proj1 (proj2 H))).
  - apply run_trace_execution. vm_compute. reflexivity.
  - vm_compute. reflexivity.
Defined.

Lemma Shutdown_closes_all_witness :
  ∃ w w', execution cfg2 two_sessions w ∧
          range_order [1; 2] (conns w) ∧
          Shutdown ctx_Background [1; 2] w = Returned (w', None) ∧
          ∀ c st, c ∈ conns w → net w !! c = Some st →
                  net w' !! c = Some (mark_closed st).
Proof.
  eexists _, _.
  split; [apply run_trace_execution; vm_compute; reflexivity|].
  assert (Hr : range_order [1; 2] ({[1]} ∪ ({[2]} ∪ ∅) : gset Conn)).
  { split; [|vm_compute; reflexivity].
    apply NoDup_cons. split; [|apply NoDup_singleton].
    by rewrite list_elem_of_singleton. }
  split; [vm_compute; exact Hr|]. split; [vm_compute; reflexivity|].
  refine (proj1 (proj2 (Shutdown_closes_all ctx_Background [1; 2] _ _ None
                          _ _))).
  - vm_compute. exact Hr.
  - vm_compute. reflexivity.
Defined.




Lemma decode_failure_handling_witness :
  ∃ w w', execution cfg2 peer_closes w ∧ step w (LDecode 1) w' ∧
          handlers w !! 1 = Some HDecode ∧
          decode_result 1 (LDecode 1) w = Some (inr io_EOF) ∧
          handlers w' !! 1 = Some HDeferClose ∧ logger w' = logger w.
Proof.
  eexists _, _.
  split; [apply run_trace_execution; vm_compute; reflexivity|].
  split; [vm_compute; reflexivity|].
  split; [vm_compute; reflexivity|].
  split; [vm_compute; reflexivity|].
  refine (let H := decode_failure_handling cfg2 peer_closes _ (LDecode 1) _
                     1 io_EOF _ _ _ _ in
          conj (proj1 H) (proj1 (proj2 H) eq_refl)).
  - apply run_trace_execution. vm_compute. reflexivity.
  - vm_compute. reflexivity.
  - vm_compute. reflexivity.
  - vm_compute. reflexivity.
Defined.

Lemma timeouts_never_applied_witness :
  ∃ w, execution cfg2 peer_closes w ∧
       ∀ c st, net w !! c = Some st →
               readDeadline st = None ∧ writeDeadline st = None.
Proof.
  eexists.
  split; [apply run_trace_execution; vm_compute; reflexivity|].
  refine (proj1 (timeouts_never_applied cfg2 peer_closes _ _)).
  apply run_trace_execution. vm_compute. reflexivity.
Defined.

(** * More of the code *)

Local Open Scope Z_scope.

(** ** The echo, in the first revision *)

Lemma frames_snoc c tr l :
  frames c (tr ++ [l]) =
  frames c tr ++ match l with
                 | LSend c' r => if decide (c' = c) then [r] else []
                 | _ => []
                 end.
Proof.
  unfold frames. rewrite omap_app. f_equal. cbn.
  destruct l; try done. by case_decide.
Qed.

Lemma echo_state_tick now d o consumed out :
  0 < d → echo_state now o consumed out →
  echo_state (now + d) o consumed out.
Proof.
  intros Hd [Hf Hs]. split.
  - eapply Forall_impl; [exact Hf|]. cbn. intros m Hm. lia.
  - destruct o as [[| | |m'| | | |]|]; try done.
    destruct Hs as (ms & m & H1 & H2 & H3 & H4).
    exists ms, m. repeat split; try done. lia.
Qed.

(** Splits on whether the step touches the stream or the session of
    [c]. *)
Ltac split_conn c :=
  match goal with
  | |- context [<[?c' := _]> _ !! c] =>
      destruct (decide (c' = c)) as [->|?]
  | |- context [alter _ ?c' _ !! c] =>
      destruct (decide (c' = c)) as [->|?]
  end.

Lemma echo_state_tick_inv c tr w d :
  (0 <? d) = true →
  match net w !! c with
  | Some st =>
      ∃ consumed, frames c tr = consumed ++ inbox st ∧
        echo_state (clock w) (handlers w !! c) consumed (outbox st)
  | None => frames c tr = []
  end →
  match net w !! c with
  | Some st =>
      ∃ consumed, frames c tr = consumed ++ inbox st ∧
        echo_state (clock w + d) (handlers w !! c) consumed (outbox st)
  | None => frames c tr = []
  end.
Proof.
  intros Hd. destruct (net w !! c) as [st|]; [|done].
  intros (consumed & H1 & H2). exists consumed. split; [done|].
  apply echo_state_tick; [lia | done].
Qed.

Lemma step_echo w l w' c tr :
  step w l w' → Invariant w → echo_inv c tr w → echo_inv c (tr ++ [l]) w'.
Proof.
  unfold echo_inv. intros H I. rewrite frames_snoc.
  pose proof (inv_net w I c) as Hn. revert Hn. clear I.
  step_inv H; cbn; rewrite ?app_nil_r; intros Hn; try done.
  all: try (by apply echo_state_tick_inv).
  all: split_conn c.
  all: try (rewrite ?lookup_insert_ne, ?lookup_alter_ne by done;
            rewrite ?decide_False by done; rewrite ?app_nil_r; done).
  all: rewrite ?lookup_insert_eq, ?lookup_alter_eq, ?decide_True by done.
  all: repeat match goal with
       | E : net _ !! _ = _ |- _ => rewrite E in *; clear E
       | E : handlers _ !! _ = _ |- _ => rewrite E in *; clear E
       end; cbn.
  all: try (destruct (net w !! c) as [st|] eqn:En; cbn; [|done]).
  all: try (intros (consumed & Hf & Ht & Hs); cbn in Hs).
  all: try (exists consumed; split; [done|]; split; done).
  - exists consumed. split; [by rewrite Hf, app_assoc | by split].
  - intros Hf. exists []. split; [by rewrite Hf|]. split; [constructor|].
    by exists [].
  - destruct Hs as (ms & -> & Ho). exists (inl <$> ms ++ [m]).
    split; [|split; [done | by exists ms]].
    match goal with E : inbox _ = _ |- _ => rewrite Hf, E end.
    by rewrite fmap_app, <- app_assoc.
  - destruct Hs as (ms & -> & Ho). exists ((inl <$> ms) ++ [inr e]).
    split; [|split; [done | by exists ms, [inr e]]].
    match goal with E : inbox _ = _ |- _ => rewrite Hf, E end.
    by rewrite <- app_assoc.
  - destruct Hs as (ms & -> & Ho). exists ((inl <$> ms) ++ [inr e]).
    split; [|split; [done | by exists ms, [inr e]]].
    match goal with E : inbox _ = _ |- _ => rewrite Hf, E end.
    by rewrite <- app_assoc.
  - destruct Hs as (ms & -> & Ho). exists (inl <$> ms).
    split; [done|]. split; [done|]. exists ms, [].
    repeat split; [by rewrite app_nil_r | cbn; lia | done].
  - destruct Hs as (ms & -> & Ho). exists (inl <$> ms).
    split; [done|]. split; [done|]. exists ms, [].
    repeat split; [by rewrite app_nil_r | cbn; lia | done].
  - destruct Hs as (ms & -> & Ho). exists (inl <$> ms ++ [m]).
    split; [done|]. split; [done|]. exists ms, m.
    repeat split; try done; cbn; lia.
  - destruct Hs as (ms & m0 & -> & Hst & Htm & Ho).
    exists (inl <$> ms ++ [m0]). split; [done|]. split.
    + apply Forall_app. split; [done|]. by apply Forall_singleton.
    + exists (ms ++ [m0]). split; [done|]. rewrite !fmap_app. cbn.
      by rewrite Ho, Hst.
  - destruct Hs as (ms & m0 & -> & Hst & Htm & Ho).
    exists (inl <$> ms ++ [m0]). split; [done|]. split; [done|].
    exists ms, [inl m0]. by rewrite fmap_app.
  - destruct Hs as (ms & m0 & -> & Hst & Htm & Ho).
    exists (inl <$> ms ++ [m0]). split; [done|]. split; [done|].
    exists ms, [inl m0]. by rewrite fmap_app.
Qed.


Lemma execution_echo cfg tr w c : execution cfg tr w → echo_inv c tr w.
Proof.
  intros (w0 & H0 & Hrun).
  pose proof (invariant_NewServer cfg w0 H0) as I0.
  assert (Hi : echo_inv c [] w0).
  { unfold NewServer in H0. destruct (MaxConnections cfg <? 0); [done|].
    by injection H0 as <-. }
  clear H0. induction Hrun as [|w0 tr w1 l w2 Hrun IH Hs]; [done|].
  apply (step_echo w1 l w2 c tr Hs); [by apply (invariant_run w0 tr w1) | auto].
Qed.

Lemma leading_app ms fs : leading ((inl <$> ms) ++ fs) = ms ++ leading fs.
Proof. induction ms as [|m ms IH]; cbn; [done | by rewrite IH]. Qed.

(** X1. In every execution, what the server has written on a
    connection is, in order, the messages it has read from it, each
    with its kind and payload unchanged and its time set to a reading
    of the server's clock; it answers no message past the first error
    of the stream, and when it waits in [Decode] with nothing left to
    read every message received has its answer. *)
Theorem echo_in_order cfg tr w c st :
  execution cfg tr w → net w !! c = Some st →
  strip <$> outbox st `prefix_of` strip <$> leading (frames c tr) ∧
  Forall (λ m, Time_ m ≤ clock w) (outbox st) ∧
  (handlers w !! c = Some HDecode → inbox st = [] →
     ∃ ms, frames c tr = inl <$> ms ∧ strip <$> outbox st = strip <$> ms).
Proof.
  intros He Hn. pose proof (execution_echo cfg tr w c He) as Hi.
  unfold echo_inv in Hi. rewrite Hn in Hi.
  destruct Hi as (consumed & Hf & Ht & Hs).
  pose proof (execution_invariant _ _ _ He) as I.
  split; [|split; [done|]].
  - rewrite Hf. destruct (handlers w !! c) as [[| |m|m'| | | |]|] eqn:Hc.
    all: try (destruct Hs as (ms & -> & Ho); rewrite leading_app, fmap_app, Ho;
              by eexists).
    all: try (destruct Hs as (ms & rest & -> & _ & Ho);
              rewrite <- app_assoc, leading_app, fmap_app, Ho; by eexists).
    + destruct Hs as (ms & -> & Ho).
      rewrite leading_app, !fmap_app, <- app_assoc, Ho. by eexists.
    + destruct Hs as (ms & m & -> & _ & _ & Ho).
      rewrite leading_app, !fmap_app, <- app_assoc, Ho. by eexists.
    + apply (inv_net w I) in Hc. congruence.
  - intros Hc Hin. rewrite Hc in Hs. destruct Hs as (ms & -> & Ho).
    exists ms. by rewrite Hf, Hin, app_nil_r.
Qed.

Lemma echo_in_order_witness :
  ∃ w st, execution cfg2 echo_once w ∧
          net w !! 1%nat = Some st ∧
          strip <$> outbox st = [("data", JString "x")] ∧
          Forall (λ m, Time_ m ≤ clock w) (outbox st).
Proof.
  eexists _, _.
  split; [apply run_trace_execution; vm_compute; reflexivity|].
  split; [vm_compute; reflexivity|]. split; [vm_compute; reflexivity|].
  refine (proj1 (proj2 (echo_in_order cfg2 echo_once _ 1%nat _ _ _))).
  - apply run_trace_execution. vm_compute. reflexivity.
  - vm_compute. reflexivity.
Defined.

(** ** A semaphore of capacity zero *)

Lemma step_zero_capacity w l w' :
  step w l w' → Invariant w → capacity w = 0%nat →
  handlers w = ∅ → net w = ∅ →
  (∀ c, l ≠ LAccept c) ∧ handlers w' = ∅ ∧ net w' = ∅.
Proof.
  intros H I. pose proof (inv_sem w I) as Hs. pose proof (inv_cap w I) as Hc.
  pose proof (inv_mutex w I) as Hm.
  revert Hs Hc Hm. clear I. unfold outstanding, active_sessions.
  step_inv H; cbn; intros Hs Hc Hm Hz Hh Hn; try done.
  all: try (by rewrite Hh, lookup_empty in *).
  all: try (by rewrite Hn, lookup_empty in *).
  all: try lia.
  by rewrite Hn, alter_empty.
Qed.

(** X2. With [MaxConnections = 0] the semaphore is an unbuffered
    channel on which nobody ever receives: the accept loop acquires no
    permit, so the server never accepts a connection. *)
Theorem zero_capacity_accepts_nothing cfg tr w :
  execution cfg tr w → MaxConnections cfg = 0 →
  (∀ c, LAccept c ∉ tr) ∧ handlers w = ∅ ∧ net w = ∅ ∧ conns w = ∅ ∧
  connSem w = 0%nat.
Proof.
  intros He Hz. pose proof (execution_invariant _ _ _ He) as I.
  assert (Hc : capacity w = 0%nat).
  { unfold capacity. rewrite (execution_config _ _ _ He), Hz. done. }
  assert (H : (∀ c, LAccept c ∉ tr) ∧ handlers w = ∅ ∧ net w = ∅).
  { destruct He as (w0 & H0 & Hrun).
    pose proof (invariant_NewServer cfg w0 H0) as I0.
    assert (Hc0 : capacity w0 = 0%nat).
    { unfold capacity in *. by rewrite <- (run_config _ _ _ Hrun). }
    assert (Hi : handlers w0 = ∅ ∧ net w0 = ∅).
    { unfold NewServer in H0. destruct (MaxConnections cfg <? 0); [done|].
      by injection H0 as <-. }
    clear H0 I Hc. induction Hrun as [|w0 tr w1 l w2 Hrun IH Hs].
    - split; [|done]. intros c. apply not_elem_of_nil.
    - destruct IH as (H1 & H2 & H3); [done..|].
      destruct (step_zero_capacity w1 l w2 Hs) as (H4 & H5 & H6); try done.
      + by apply (invariant_run w0 tr w1).
      + unfold capacity in *. by rewrite (run_config _ _ _ Hrun).
      + split; [|done]. intros c.
        rewrite elem_of_app, list_elem_of_singleton.
        intros [Hin | Hin]; [by apply (H1 c) | by apply (H4 c)]. }
  destruct H as (H1 & H2 & H3). repeat split; try done.
  - apply set_eq. intros c. rewrite (inv_registry w I), H2, lookup_empty.
    cbn. split; [done | by rewrite elem_of_empty].
  - pose proof (inv_cap w I). lia.
Qed.

Lemma zero_capacity_accepts_nothing_witness :
  ∃ w, execution cfg0 [LStart; LDial; LDial] w ∧
       connSem w = 0%nat ∧ net w = ∅.
Proof.
  eexists. split; [apply run_trace_execution; vm_compute; reflexivity|].
  refine (let H := zero_capacity_accepts_nothing cfg0 [LStart; LDial; LDial]
                     _ _ eq_refl in
          conj (proj2 (proj2 (proj2 (proj2 H))))
               (proj1 (proj2 (proj2 H)))).
  apply run_trace_execution. vm_compute. reflexivity.
Defined.

(** ** [Shutdown] among the goroutines *)

Lemma main_step w l w' : exited w = false → exec_main l w = Some w' →
  actor l = Main → step w l w'.
Proof. intros Hx He Ha. unfold step, exec. by rewrite Hx, Ha. Qed.

Lemma select_returns w :
  mainpc w = SdSelect →
  ∃ tr w' r, run w tr w' ∧ Forall (λ l, actor l = Main) tr ∧
             mainpc w' = MReturned r ∧ length tr = 1%nat ∧
             handlers w' = handlers w.
Proof.
  intros Hm. exists [LSelect]. eexists. eexists.
  split; [apply run_one, main_step; [| |done]|].
  - unfold exited. by rewrite Hm.
  - unfold exec_main. by rewrite Hm.
  - repeat split; try done. by apply Forall_singleton.
Qed.

Lemma range_returns todo : ∀ w,
  mainpc w = SdRange todo →
  ∃ tr w' r, run w tr w' ∧ Forall (λ l, actor l = Main) tr ∧
             mainpc w' = MReturned r ∧ length tr = (length todo + 2)%nat ∧
             handlers w' = handlers w.
Proof.
  induction todo as [|c todo IH]; intros w Hm.
  - destruct (select_returns (set_mainpc SdSelect (set_connMutex false w)))
      as (tr & w' & r & Hrun & Hf & Hr & Hl & Hh); [done|].
    exists (LUnlock :: tr), w', r. split; [|split; [|split; [|split]]].
    + apply (run_app w [LUnlock]
               (set_mainpc SdSelect (set_connMutex false w)) tr w');
        [|exact Hrun].
      apply run_one, main_step; [| |done].
      * unfold exited. by rewrite Hm.
      * unfold exec_main. by rewrite Hm.
    + by constructor.
    + done.
    + cbn. by rewrite Hl.
    + done.
  - destruct (IH (set_mainpc (SdRange todo) (close_logged c w)))
      as (tr & w' & r & Hrun & Hf & Hr & Hl & Hh); [done|].
    exists (LCloseConn :: tr), w', r. split; [|split; [|split; [|split]]].
    + apply (run_app w [LCloseConn]
               (set_mainpc (SdRange todo) (close_logged c w)) tr w');
        [|exact Hrun].
      apply run_one, main_step; [| |done].
      * unfold exited. by rewrite Hm.
      * unfold exec_main. by rewrite Hm.
    + by constructor.
    + done.
    + cbn. by rewrite Hl.
    + rewrite Hh. by rewrite close_logged_eq.
Qed.

Lemma lock_returns w :
  mainpc w = SdLock → connMutex w = false →
  ∃ tr w' r, run w tr w' ∧ Forall (λ l, actor l = Main) tr ∧
             mainpc w' = MReturned r ∧
             length tr = (size (conns w) + 3)%nat ∧
             handlers w' = handlers w.
Proof.
  intros Hm Hmu.
  destruct (range_returns (elements (conns w))
              (set_mainpc (SdRange (elements (conns w)))
                 (set_connMutex true w)))
    as (tr & w' & r & Hrun & Hf & Hr & Hl & Hh); [done|].
  exists (LLock (elements (conns w)) :: tr), w', r.
  split; [|split; [|split; [|split]]].
  - apply (run_app w [LLock (elements (conns w))]
             (set_mainpc (SdRange (elements (conns w)))
                (set_connMutex true w)) tr w'); [|exact Hrun].
    apply run_one, main_step; [| |done].
    + unfold exited. by rewrite Hm.
    + unfold exec_main. rewrite Hm, Hmu. rewrite decide_True; [done|].
      split; [apply NoDup_elements | apply list_to_set_elements_L].
  - by constructor.
  - done.
  - cbn. rewrite Hl. unfold size, set_size. cbn. lia.
  - done.
Qed.

(** X3. In an execution, [main] is never stuck inside [Shutdown] and
    never panics there: from any point of it, steps of [main] alone take
    it to its [return], as many as there are handles in the registry
    plus at most five, and they touch no session. *)
Theorem Shutdown_always_returns cfg tr w :
  execution cfg tr w → in_Shutdown (mainpc w) = true →
  ∃ tr' w' r, run w tr' w' ∧ Forall (λ l, actor l = Main) tr' ∧
              mainpc w' = MReturned r ∧
              length tr' = Shutdown_steps (mainpc w) (size (conns w)) ∧
              handlers w' = handlers w.
Proof.
  intros He Hin. pose proof (execution_invariant _ _ _ He) as I.
  pose proof (inv_started w I) as Hst. pose proof (inv_signaled w I) as Hsg.
  pose proof (inv_mutex w I) as Hmu. pose proof (inv_listener w I) as Hli.
  destruct (mainpc w) as [| | | | | |todo| | |] eqn:Hm; try done; cbn in *.
  - (* close(s.shutdown) *)
    destruct Hst as [[l Hl] _]. rewrite Hl in Hli. cbn in Hli.
    set (w2 := set_mainpc SdLock
                 (set_listener (Some (mkListener true (backlog l)))
                    (set_mainpc SdCloseListener (set_shutdown true w)))).
    destruct (lock_returns w2) as (tr' & w' & r & Hrun & Hf & Hr & Hlen & Hh);
      [done | done |].
    exists (LCloseChan :: LCloseListener :: tr'), w', r.
    split; [|split; [|split; [|split]]]; try done.
    + apply (run_app w [LCloseChan; LCloseListener] w2 tr' w'); [|done].
      apply replay_run. cbn. unfold exec, exited. rewrite Hm. cbn.
      unfold exec_main, close_shutdown. rewrite Hm, Hsg. cbn.
      unfold exec_main, listener_Close. cbn. rewrite Hl, Hli. done.
    + by repeat constructor.
    + cbn. rewrite Hlen. cbn. lia.
  - (* s.listener.Close() *)
    destruct Hst as [[l Hl] _]. rewrite Hl in Hli. cbn in Hli.
    set (w2 := set_mainpc SdLock
                 (set_listener (Some (mkListener true (backlog l))) w)).
    destruct (lock_returns w2) as (tr' & w' & r & Hrun & Hf & Hr & Hlen & Hh);
      [done | done |].
    exists (LCloseListener :: tr'), w', r.
    split; [|split; [|split; [|split]]]; try done.
    + apply (run_app w [LCloseListener] w2 tr' w'); [|done].
      apply run_one, main_step; [| |done].
      * unfold exited. by rewrite Hm.
      * unfold exec_main, listener_Close. by rewrite Hm, Hl, Hli.
    + by repeat constructor.
    + cbn. rewrite Hlen. cbn. lia.
  - by apply lock_returns.
  - by apply range_returns.
  - by apply select_returns.
Qed.

Lemma Shutdown_always_returns_witness :
  ∃ w, execution cfg2 two_sessions w ∧
       ∃ tr' w' r, run w tr' w' ∧ mainpc w' = MReturned r ∧
                   length tr' = 7%nat.
Proof.
  eexists. split; [apply run_trace_execution; vm_compute; reflexivity|].
  match goal with |- ∃ tr' w' r, run ?w _ _ ∧ _ =>
    assert (He : execution cfg2 two_sessions w)
      by (apply run_trace_execution; vm_compute; reflexivity);
    destruct (Shutdown_always_returns cfg2 two_sessions w He eq_refl)
      as (tr' & w' & r & Hrun & _ & Hr & Hl & _);
    exact (ex_intro _ tr' (ex_intro _ w' (ex_intro _ r
             (conj Hrun (conj Hr Hl)))))
  end.
Defined.

Lemma run_app_inv w tr1 tr2 w' :
  run w (tr1 ++ tr2) w' → ∃ w1, run w tr1 w1 ∧ run w1 tr2 w'.
Proof.
  revert w. induction tr1 as [|l tr1 IH]; intros w H; cbn in H.
  - exists w. split; [constructor | done].
  - apply run_cons_inv in H as (w0 & Hs & Hrun).
    destruct (IH w0 Hrun) as (w1 & H1 & H2).
    exists w1. split; [|done].
    apply (run_app w [l] w0 tr1 w1); [by apply run_one | done].
Qed.

(** A closed stream stays closed, and a stream stays a stream. *)
Lemma step_closed_in w l w' c :
  step w l w' →
  (closed_in w c → closed_in w' c) ∧
  (is_Some (net w !! c) → is_Some (net w' !! c)).
Proof.
  unfold closed_in. intros H. step_inv H; cbn; try done.
  all: split_conn c.
  all: rewrite ?lookup_insert_eq, ?lookup_alter_eq;
       rewrite ?lookup_insert_ne, ?lookup_alter_ne by done; try done.
  all: repeat match goal with
       | E : net _ !! _ = _ |- _ => rewrite E; clear E
       end; cbn.
  all: try (destruct (net w !! c) as [st0|]; cbn).
  all: split; [|by eauto].
  all: try (by intros (st & [=] & Hc)).
  all: intros (st & [= <-] & Hc); by eexists.
Qed.

Lemma run_closed_in w tr w' c :
  run w tr w' → closed_in w c → closed_in w' c.
Proof.
  induction 1 as [|w tr w1 l w2 _ IH Hs]; [done|]. intros Hc.
  by apply (step_closed_in w1 l w2 c Hs), IH.
Qed.

Lemma step_range_inv w l w' ks :
  step w l w' → range_inv ks w → range_inv ks w'.
Proof.
  unfold range_inv. intros H [H1 H2].
  assert (Hcl : ∀ c, closed_in w c → closed_in w' c)
    by (intros c; apply (step_closed_in w l w' c H)).
  split. { intros c Hc. by apply (step_closed_in w l w' c H), H1. }
  revert H2 Hcl. unfold closed_in. step_inv H; cbn; try done.
  all: try (destruct (mainpc w); try done; intros H2 Hcl c0 Hc0;
            destruct (H2 c0 Hc0); by eauto).
  all: intros H2 Hcl c0 Hc0; try (by eauto).
  - destruct (H2 c0 Hc0) as [Hin | Hc]; [|by eauto].
    apply elem_of_cons in Hin as [->|Hin]; [|by left]. right.
    destruct (H1 c Hc0) as [st Hst]. rewrite lookup_alter_eq, Hst.
    by eexists.
  - destruct (H2 c0 Hc0) as [Hin | Hc]; [|by eauto].
    by apply elem_of_nil in Hin.
Qed.

Lemma run_range_inv w tr w' ks :
  run w tr w' → range_inv ks w → range_inv ks w'.
Proof. induction 1; eauto using step_range_inv. Qed.

(** X4. In an execution, once [Shutdown] is past its loop every
    connection that was in the registry when it took the lock has been
    closed, whatever the sessions did meanwhile; the signal has fired
    and the listener is closed. *)
Theorem Shutdown_closes_registered cfg tr1 ks tr2 w :
  execution cfg (tr1 ++ LLock ks :: tr2) w →
  ∃ w1, execution cfg tr1 w1 ∧ range_order ks (conns w1) ∧
        ((mainpc w = SdSelect ∨ ∃ r, mainpc w = MReturned r) →
           shutdown w = true ∧ is_closed (listener w) = true ∧
           ∀ c, c ∈ conns w1 → closed_in w c).
Proof.
  intros He. pose proof (execution_invariant _ _ _ He) as I.
  destruct He as (w0 & H0 & Hrun).
  apply run_app_inv in Hrun as (w1 & Hrun1 & Hrun).
  apply run_cons_inv in Hrun as (w2 & Hs & Hrun2).
  assert (He1 : execution cfg tr1 w1) by (by exists w0).
  pose proof (execution_invariant _ _ _ He1) as I1.
  assert (Hl : range_order ks (conns w1) ∧ range_inv ks w2).
  { pose proof (inv_registry w1 I1) as Hr. pose proof (inv_net w1 I1) as Hn.
    clear I1 He1 Hrun1 Hrun2 I. unfold range_inv.
    unfold step, exec in Hs. destruct (exited w1); [done|].
    cbn in Hs. unfold exec_main in Hs.
    destruct (mainpc w1); try done. destruct (connMutex w1); [done|].
    destruct (decide (range_order ks (conns w1))) as [Hro|]; [|done].
    injection Hs as <-. cbn. split; [done|]. split; [|by left].
    intros c Hc. destruct Hro as [_ Hro].
    assert (Hin : c ∈ conns w1)
      by (rewrite <- Hro; by apply elem_of_list_to_set).
    apply Hr in Hin as Hc'. destruct (net w1 !! c) eqn:E; [by eexists|].
    apply Hn in E. by rewrite E in Hc'. }
  destruct Hl as [Hro Hri]. exists w1. split; [done|]. split; [done|].
  pose proof (run_range_inv w2 tr2 w ks Hrun2 Hri) as [_ Hw].
  pose proof (inv_signaled w I) as Hsg. pose proof (inv_listener w I) as Hli.
  destruct Hro as [_ Hro].
  intros [Hm | [r Hm]]; rewrite Hm in *; cbn in *.
  all: split; [done|]; split; [done|].
  all: intros c Hc; apply Hw; rewrite <- Hro in Hc.
  all: by apply elem_of_list_to_set in Hc.
Qed.

Lemma Shutdown_closes_registered_witness :
  ∃ w, execution cfg2
         (two_sessions ++ LCloseChan :: LCloseListener ::
            LLock [1; 2]%nat :: [LCloseConn; LCloseConn; LUnlock]) w ∧
       mainpc w = SdSelect ∧ closed_in w 2%nat.
Proof.
  eexists. split; [apply run_trace_execution; vm_compute; reflexivity|].
  split; [vm_compute; reflexivity|].
  match goal with |- closed_in ?w _ =>
    assert (He : execution cfg2
              ((two_sessions ++ [LCloseChan; LCloseListener]) ++
                 LLock [1; 2]%nat :: [LCloseConn; LCloseConn; LUnlock]) w)
      by (apply run_trace_execution; vm_compute; reflexivity);
    destruct (Shutdown_closes_registered cfg2 _ _ _ w He)
      as (w1 & He1 & [_ Hro] & H)
  end.
  apply (proj2 (proj2 (H (or_introl eq_refl)))).
  rewrite <- Hro. apply elem_of_list_to_set. apply list_elem_of_further.
  apply list_elem_of_here.
Defined.

(** ** The registry under the lock *)

Lemma step_locked w l w' :
  step w l w' → connMutex w = true →
  conns w' = conns w ∧ (l ≠ LUnlock → connMutex w' = true).
Proof.
  intros H Hm. step_inv H; cbn; try done; split; try done; congruence.
Qed.

Lemma run_locked w tr w' :
  run w tr w' → connMutex w = true → LUnlock ∉ tr →
  conns w' = conns w ∧ connMutex w' = true.
Proof.
  induction 1 as [|w tr w1 l w2 _ IH Hs]; [done|]. intros Hm Hn.
  rewrite elem_of_app, list_elem_of_singleton in Hn.
  destruct IH as [IH1 IH2]; [done|tauto|].
  destruct (step_locked w1 l w2 Hs IH2) as [H1 H2].
  split; [congruence|]. apply H2. intros ->. tauto.
Qed.

(** X5. While [Shutdown] is in its loop over the registry it holds the
    lock: the registry is the one it found, and no session can get
    through [addConnection] or [removeConnection]. *)
Theorem registry_frozen_in_loop cfg tr1 ks tr2 w :
  execution cfg (tr1 ++ LLock ks :: tr2) w → LUnlock ∉ tr2 →
  ∃ w1, execution cfg tr1 w1 ∧ conns w = conns w1 ∧
        ∀ c w', ¬ step w (LAdd c) w' ∧ ¬ step w (LRemove c) w'.
Proof.
  intros (w0 & H0 & Hrun) Hn.
  apply run_app_inv in Hrun as (w1 & Hrun1 & Hrun).
  apply run_cons_inv in Hrun as (w2 & Hs & Hrun2).
  exists w1. split; [by exists w0|].
  assert (H2 : conns w2 = conns w1 ∧ connMutex w2 = true).
  { clear Hrun1 Hrun2. unfold step, exec in Hs.
    destruct (exited w1); [done|]. cbn in Hs. unfold exec_main in Hs.
    destruct (mainpc w1); try done. destruct (connMutex w1); [done|].
    destruct (decide (range_order ks (conns w1))); [|done].
    by injection Hs as <-. }
  destruct H2 as [Hc Hm].
  destruct (run_locked w2 tr2 w Hrun2 Hm Hn) as [Hc' Hm'].
  split; [congruence|]. intros c w'. split; intros Hs'.
  all: unfold step, exec in Hs'; destruct (exited w); [done|].
  all: cbn in Hs'; unfold exec_handler, addConnection, removeConnection in Hs'.
  all: rewrite Hm' in Hs'; by destruct (handlers w !! c) as [[]|].
Qed.

Lemma registry_frozen_in_loop_witness :
  ∃ w, execution cfg2 in_range_loop w ∧
       handlers w !! 2%nat = Some HDeferRemove ∧
       ∀ w', ¬ step w (LRemove 2%nat) w'.
Proof.
  eexists. split; [apply run_trace_execution; vm_compute; reflexivity|].
  split; [vm_compute; reflexivity|].
  match goal with |- ∀ w', ¬ step ?w _ w' =>
    assert (He : execution cfg2
              ((two_sessions ++ [LCloseChan; LCloseListener]) ++
                 LLock [1; 2]%nat ::
                 [LCloseConn; LSend 2%nat (inr io_EOF); LDecode 2%nat;
                  LClose 2%nat; LRelease 2%nat]) w)
      by (apply run_trace_execution; vm_compute; reflexivity);
    destruct (registry_frozen_in_loop cfg2 _ _ _ w He)
      as (w1 & He1 & _ & Hb)
  end.
  - intros Hin. repeat (apply elem_of_cons in Hin as [Hin|Hin]; [done|]).
    by apply elem_of_nil in Hin.
  - intros w'. apply (Hb 2%nat w').
Defined.

(** ** The deadline of [Shutdown] *)

Lemma run_nil_inv w w' : run w [] w' → w' = w.
Proof.
  inversion 1 as [|? tr ? l ? ? ? E]; [done|]. by destruct tr.
Qed.

Lemma step_clock w l w' : step w l w' → clock w' = clock w + elapsed [l].
Proof. intros H. step_inv H; cbn; lia. Qed.

Lemma elapsed_app tr1 tr2 : elapsed (tr1 ++ tr2) = elapsed tr1 + elapsed tr2.
Proof.
  induction tr1 as [|l tr1 IH]; [done|].
  unfold elapsed in *. cbn. destruct l; lia.
Qed.

Lemma run_clock w tr w' : run w tr w' → clock w' = clock w + elapsed tr.
Proof.
  induction 1 as [|w tr w1 l w2 _ IH Hs]; [cbn; lia|].
  rewrite elapsed_app, (step_clock _ _ _ Hs). lia.
Qed.

(** The deadline is set once, when the signal arrives. *)
Lemma step_deadline w l w' :
  step w l w' → in_Shutdown (mainpc w) || exited w = true →
  deadline w' = deadline w ∧ in_Shutdown (mainpc w') || exited w' = true.
Proof.
  intros H. step_inv H; cbn; try done.
  all: unfold exited; cbn.
  all: try (destruct (in_Shutdown (mainpc w)); by cbn).
Qed.

Lemma run_deadline w tr w' :
  run w tr w' → in_Shutdown (mainpc w) || exited w = true →
  deadline w' = deadline w.
Proof.
  intros H Hm.
  enough (deadline w' = deadline w ∧
          in_Shutdown (mainpc w') || exited w' = true) by tauto.
  induction H as [|w tr w1 l w2 _ IH Hs]; [done|].
  destruct (IH Hm) as [IH1 IH2].
  destruct (step_deadline _ _ _ Hs IH2) as [H1 H2]. split; congruence.
Qed.

(** X6. What [main] gets from [Shutdown] is decided by the time that
    passed between the signal and the final [select]: the context error
    when it is the shutdown timeout or more, [nil] when it is less. *)
Theorem Shutdown_result_by_elapsed_time cfg tr1 tr2 w :
  execution cfg (tr1 ++ LSignal :: tr2 ++ [LSelect]) w →
  mainpc w = MReturned (if ShutdownTimeout cfg <=? elapsed tr2
                        then Some context_DeadlineExceeded else None).
Proof.
  intros (w0 & H0 & Hrun).
  apply run_app_inv in Hrun as (w1 & Hrun1 & Hrun).
  apply run_cons_inv in Hrun as (w2 & Hs & Hrun).
  apply run_app_inv in Hrun as (w3 & Hrun2 & Hrun).
  apply run_cons_inv in Hrun as (w4 & Hs' & Hrun).
  apply run_nil_inv in Hrun as ->.
  assert (Hc : config w1 = cfg) by (apply (execution_config cfg tr1); by exists w0).
  assert (H2 : deadline w2 = Some (clock w2 + ShutdownTimeout cfg) ∧
               mainpc w2 = SdCloseChan).
  { clear Hrun1 Hrun2 Hs'. unfold step, exec in Hs.
    destruct (exited w1); [done|]. cbn in Hs. unfold exec_main in Hs.
    destruct (mainpc w1); try done. injection Hs as <-. cbn. by rewrite Hc. }
  destruct H2 as [Hd Hm].
  pose proof (run_clock _ _ _ Hrun2) as Hck.
  pose proof (run_deadline _ _ _ Hrun2) as Hdl. rewrite Hm in Hdl.
  specialize (Hdl eq_refl). rewrite Hd in Hdl. clear Hrun1 Hrun2 Hs.
  unfold step, exec in Hs'. destruct (exited w3); [done|]. cbn in Hs'.
  unfold exec_main in Hs'. destruct (mainpc w3); try done.
  injection Hs' as <-. cbn. f_equal. unfold main_ctx. rewrite Hdl. cbn.
  rewrite Hck.
  destruct (ShutdownTimeout cfg <=? elapsed tr2) eqn:E1;
  destruct (clock w2 + ShutdownTimeout cfg <=? clock w2 + elapsed tr2) eqn:E2;
  try done; lia.
Qed.

Lemma Shutdown_result_by_elapsed_time_witness :
  ∃ w, execution cfg2
         ([LStart; LTick 7] ++ LSignal ::
            [LCloseChan; LTick (30 * Second); LCloseListener; LLock [];
             LUnlock] ++ [LSelect]) w ∧
       mainpc w = MReturned (Some context_DeadlineExceeded).
Proof.
  eexists. split; [apply run_trace_execution; vm_compute; reflexivity|].
  match goal with |- mainpc ?w = _ =>
    assert (He : execution cfg2
              ([LStart; LTick 7] ++ LSignal ::
                 [LCloseChan; LTick (30 * Second); LCloseListener; LLock [];
                  LUnlock] ++ [LSelect]) w)
      by (apply run_trace_execution; vm_compute; reflexivity);
    exact (Shutdown_result_by_elapsed_time cfg2 _ _ w He)
  end.
Defined.

(** ** [Start] *)

Lemma step_not_started w l w' :
  step w l w' → started (mainpc w') = false → not_started w →
  not_started w'.
Proof.
  unfold not_started.
  intros H Hs (Hl & Ha & Hh & Hn & Hc & Hlg & Hsm & Hsh & Hmx & Hd).
  step_inv H; cbn in *; try done; try congruence.
  all: repeat match goal with
       | E : ?m = ∅, H : ?m !! _ = _ |- _ => rewrite E, lookup_empty in H
       end; try done.
Qed.

Lemma step_started w l w' :
  step w l w' → started (mainpc w) = true → started (mainpc w') = true.
Proof. intros H. step_inv H; cbn; try done. Qed.

Lemma run_not_started w tr w' :
  run w tr w' → started (mainpc w') = false → not_started w →
  not_started w'.
Proof.
  induction 1 as [|w tr w1 l w2 _ IH Hs]; [done|]. intros Hm Hn.
  apply (step_not_started _ _ _ Hs Hm), IH; [|done].
  destruct (started (mainpc w1)) eqn:E; [|done].
  by rewrite (step_started _ _ _ Hs E) in Hm.
Qed.

(** X7. When the port cannot be bound, [main] exits with the server as
    [NewServer] built it: nothing was logged by the server, no
    goroutine was started, and nothing runs afterwards. *)
Theorem Start_failure_exits cfg tr w e :
  execution cfg tr w → mainpc w = MFatal e →
  ∃ w0, NewServer cfg = Returned w0 ∧
        w = set_mainpc (MFatal e) (set_clock (elapsed tr) w0) ∧
        ∀ l w', ¬ step w l w'.
Proof.
  intros He Hm. pose proof (execution_config _ _ _ He) as Hc.
  destruct He as (w0 & H0 & Hrun). exists w0. split; [done|].
  pose proof (run_clock _ _ _ Hrun) as Hck.
  assert (Hn : not_started w).
  { apply (run_not_started _ _ _ Hrun); [by rewrite Hm|].
    unfold NewServer in H0. destruct (MaxConnections cfg <? 0); [done|].
    injection H0 as <-. by repeat split. }
  split.
  - unfold NewServer in H0. destruct (MaxConnections cfg <? 0); [done|].
    injection H0 as <-. cbn in *.
    destruct Hn as (? & ? & ? & ? & ? & ? & ? & ? & ? & ?).
    destruct w. cbn in *. subst. f_equal; lia.
  - intros l w' Hs. unfold step, exec, exited in Hs. by rewrite Hm in Hs.
Qed.

Lemma Start_failure_exits_witness :
  ∃ w, execution cfg2 bind_fails w ∧ logger w = [] ∧ acc w = AccIdle ∧
       clock w = 5.
Proof.
  eexists. split; [apply run_trace_execution; vm_compute; reflexivity|].
  match goal with |- logger ?w = _ ∧ _ =>
    assert (He : execution cfg2 bind_fails w)
      by (apply run_trace_execution; vm_compute; reflexivity);
    destruct (Start_failure_exits cfg2 _ w _ He eq_refl)
      as (w0 & H0 & Hw & _)
  end.
  injection H0 as <-. by rewrite Hw.
Defined.

(** ** The end of the sessions *)

(** X9. Nothing is left behind by the sessions: when every session has
    run its deferred function to the end, the registry is empty, every
    accepted stream is closed, and the only slot of the semaphore that
    can be taken is the one the accept loop holds itself. *)
Theorem sessions_leave_nothing cfg tr w :
  execution cfg tr w →
  (∀ c pc, handlers w !! c = Some pc → pc = HDone) →
  conns w = ∅ ∧ connSem w = acc_permit (acc w) ∧
  ∀ c st, net w !! c = Some st → closed st = true.
Proof.
  intros He Hd. pose proof (execution_invariant _ _ _ He) as I.
  split; [|split].
  - apply set_eq. intros c. rewrite (inv_registry w I c).
    split; [|by intros ?%elem_of_empty].
    destruct (handlers w !! c) as [pc|] eqn:E; [|done].
    by rewrite (Hd c pc E).
  - rewrite (inv_sem w I). unfold outstanding, active_sessions, held.
    assert (Hf : filter (λ p : Conn * HPc, holds_permit p.2 = true)
                   (handlers w) = ∅).
    { apply map_eq. intros c. rewrite lookup_empty.
      apply map_lookup_filter_None. right. intros pc E. cbn.
      by rewrite (Hd c pc E). }
    by rewrite Hf, map_size_empty.
  - intros c st E. apply (inv_closed w I c st); [|done].
    destruct (handlers w !! c) as [pc|] eqn:Eh.
    + by rewrite (Hd c pc Eh).
    + apply (inv_net w I) in Eh. congruence.
Qed.

Lemma sessions_leave_nothing_witness :
  ∃ w, execution cfg2
         (one_session ++ [LSend 1%nat (inr io_EOF); LDecode 1%nat;
                          LClose 1%nat; LRelease 1%nat; LRemove 1%nat]) w ∧
       conns w = ∅ ∧ connSem w = 0%nat.
Proof.
  eexists. split; [apply run_trace_execution; vm_compute; reflexivity|].
  match goal with |- conns ?w = _ ∧ _ =>
    assert (He : execution cfg2
              (one_session ++ [LSend 1%nat (inr io_EOF); LDecode 1%nat;
                               LClose 1%nat; LRelease 1%nat; LRemove 1%nat])
              w)
      by (apply run_trace_execution; vm_compute; reflexivity);
    destruct (sessions_leave_nothing cfg2 _ w He) as (H1 & H2 & _)
  end.
  - intros c pc Hl. apply elem_of_map_to_list in Hl. revert Hl.
    match goal with |- _ ∈ map_to_list ?m → _ =>
      let l := eval vm_compute in (map_to_list m) in
      change (map_to_list m) with l
    end.
    by intros [= -> ->]%list_elem_of_singleton.
  - split; [exact H1|exact H2].
Defined.

(** * The later revision: the session *)

Lemma session_shape
    (sprint_v : json → string) (RFC3339Nano : Time → string)
    (remoteAddr : string) (rounds : list Part000.Round) :
  ∃ body,
    Part000.session sprint_v RFC3339Nano remoteAddr rounds =
      body ++ (if existsb Part000.ends rounds then Part000.deferred else []) ∧
    Forall (λ a, Part000.is_deferred a = false ∧ a ≠ Part000.DoAdd) body.
Proof.
  induction rounds as [|r rounds (body & IH1 & IH2)]; cbn.
  - exists []. by split.
  - unfold Part000.ends at 1.
    destruct (Part000.decoded r) as [msg|err]; cbn.
    + destruct (Part000.encoded r) as [err|]; cbn.
      * eexists [_; _; _]. split; [reflexivity|]. by repeat constructor.
      * eexists (_ :: _ :: body). rewrite IH1. split; [reflexivity|].
        by repeat constructor.
    + eexists [_]. split; [reflexivity|]. by repeat constructor.
Qed.

(** X10. The session registers first, once; its deferred function runs
    exactly when a round fails, in [Decode] or in [Encode]: then it is
    the end of the session, it runs once, and closes, releases and
    unregisters in this order. *)
Theorem deferred_runs_last
    (sprint_v : json → string) (RFC3339Nano : Time → string)
    (remoteAddr : string) (rounds : list Part000.Round) :
  ∃ body,
    Part000.handleConnection sprint_v RFC3339Nano remoteAddr rounds =
      Part000.DoAdd :: body ++
        (if existsb Part000.ends rounds
         then [Part000.DoClose; Part000.DoRelease; Part000.DoRemove]
         else []) ∧
    Forall (λ a, Part000.is_deferred a = false ∧ a ≠ Part000.DoAdd) body.
Proof.
  destruct (session_shape sprint_v RFC3339Nano remoteAddr rounds)
    as (body & H1 & H2).
  exists (Part000.DoLog (Part000.LogNewConnection remoteAddr) :: body).
  unfold Part000.handleConnection. rewrite H1. split; [done|].
  by constructor.
Qed.




Lemma session_encode
    (sprint_v : json → string) (RFC3339Nano : Time → string)
    (remoteAddr : string) (rounds : list Part000.Round) pre m r post :
  Part000.session sprint_v RFC3339Nano remoteAddr rounds =
    pre ++ Part000.DoEncode m r :: post →
  ∃ pre' req t,
    pre = pre' ++ [Part000.DoLog
                     (Part000.received sprint_v RFC3339Nano remoteAddr req)] ∧
    m = Part000.stamp t req.
Proof.
  revert pre. induction rounds as [|rd rounds IH]; intros pre; cbn.
  - by destruct pre.
  - destruct (Part000.decoded rd) as [msg|err].
    + destruct pre as [|a [|b pre]]; cbn; [done| |].
      * destruct (Part000.encoded rd); intros [= <- <- _];
          by exists [], msg, (Part000.now rd).
      * destruct (Part000.encoded rd) as [err|].
        -- intros [= <- <- H]. exfalso.
           assert (Hin : Part000.DoEncode m r ∈
                           Part000.DoLog (Part000.LogSendError remoteAddr err)
                             :: Part000.deferred)
             by (rewrite H, elem_of_app; right; by left).
           unfold Part000.deferred in Hin.
           repeat (apply elem_of_cons in Hin as [Hin|Hin]; try done).
           by apply elem_of_nil in Hin.
        -- intros [= <- <- H]. apply IH in H as (pre' & req & t & -> & ->).
           by eexists (_ :: _ :: pre'), req, t.
    + intros H. exfalso.
      assert (Hin : Part000.DoEncode m r ∈
                Part000.DoLog
                  (if String.eqb (Error err) "EOF"
                   then Part000.LogClosedByClient remoteAddr
                   else Part000.LogDecodeError remoteAddr err)
                  :: Part000.deferred)
        by (rewrite H, elem_of_app; right; by left).
      unfold Part000.deferred in Hin.
      repeat (apply elem_of_cons in Hin as [Hin|Hin]; try done).
      by apply elem_of_nil in Hin.
Qed.

(** X12. Each call of [Encode] comes right after the log line of the
    message it echoes: the line shows the message as it was received,
    time included, and the message sent differs from it in the time
    only. *)
Theorem response_follows_log_line
    (sprint_v : json → string) (RFC3339Nano : Time → string)
    (remoteAddr : string) (rounds : list Part000.Round) pre m r post :
  Part000.handleConnection sprint_v RFC3339Nano remoteAddr rounds =
    pre ++ Part000.DoEncode m r :: post →
  ∃ pre' req t,
    pre = pre' ++ [Part000.DoLog
                     (Part000.received sprint_v RFC3339Nano remoteAddr req)] ∧
    m = Part000.stamp t req.
Proof.
  unfold Part000.handleConnection.
  destruct pre as [|a [|b pre]]; cbn; [done|done|].
  intros [= <- <- H]. apply session_encode in H as (pre' & req & t & -> & ->).
  by eexists (_ :: _ :: pre'), req, t.
Qed.

Lemma response_follows_log_line_witness :
  ∃ pre' req t,
    [Part000.DoAdd; Part000.DoLog (Part000.LogNewConnection "peer");
     Part000.DoLog (Part000.received (λ _, "v") (λ _, "t") "peer" ping)] =
      pre' ++ [Part000.DoLog
                 (Part000.received (λ _, "v") (λ _, "t") "peer" req)] ∧
    Part000.stamp 7 ping = Part000.stamp t req.
Proof.
  eapply (response_follows_log_line (λ _, "v") (λ _, "t") "peer"
            echo_then_eof _ _ None). reflexivity.
Defined.

(** * The later revision: the payload in the log *)

Lemma line_feeds_app s1 s2 :
  Part000.line_feeds (s1 +:+ s2) =
    (Part000.line_feeds s1 + Part000.line_feeds s2)%nat.
Proof.
  induction s1 as [|a s1 IH]; [done|].
  change (String a s1 +:+ s2) with (String a (s1 +:+ s2)).
  cbn [Part000.line_feeds]. rewrite IH. lia.
Qed.

Lemma line_feeds_pretty_N_go x s :
  Part000.line_feeds (pretty_N_go x s) = Part000.line_feeds s.
Proof.
  revert s. induction (N.lt_wf_0 x) as [x _ IH]; intros s.
  assert (x = 0 ∨ 0 < x)%N as [->|?] by lia.
  - by rewrite pretty_N_go_0.
  - rewrite pretty_N_go_step by done. rewrite IH by (by apply N.div_lt).
    cbn. unfold pretty_N_char. by repeat case_match.
Qed.

Lemma line_feeds_pretty (n : nat) : Part000.line_feeds (pretty n) = 0%nat.
Proof.
  unfold pretty, pretty_nat, pretty, pretty_N. case_match; [done|].
  apply line_feeds_pretty_N_go.
Qed.

Lemma prettyPrintEntry_lines (sprint_v : json → string) value :
  ∀ indent key,
    Part000.line_feeds indent = 0%nat → Part000.line_feeds key = 0%nat →
    Part000.one_line sprint_v value = true →
    Part000.line_feeds (Part000.prettyPrintEntry sprint_v indent key value)
      = S (Part000.keys value).
Proof.
  induction value as [|b|f|s|xs|kvs IH] using json_entries_ind;
    intros indent key Hi Hk Hv.
  1-4: cbn in *; apply Nat.eqb_eq in Hv;
       rewrite !line_feeds_app, Hi, Hk, Hv; done.
  - cbn. rewrite !line_feeds_app, Hi, Hk, line_feeds_pretty. done.
  - cbn [Part000.prettyPrintEntry Part000.keys].
    rewrite !line_feeds_app, Hi, Hk. cbn [Part000.one_line] in Hv.
    change (Part000.line_feeds ":") with 0%nat.
    change (Part000.line_feeds Part000.LF) with 1%nat.
    cbn [Nat.add]. f_equal.
    assert (Hi2 : Part000.line_feeds (indent +:+ "  ") = 0%nat)
      by (by rewrite line_feeds_app, Hi).
    revert Hv. generalize (indent +:+ "  ") Hi2. clear Hi Hi2.
    intros ind Hind. induction IH as [|[k x] kvs Hx _ IHk]; [done|].
    cbn in Hx. intros Hv.
    apply andb_true_iff in Hv as [Hv Hv3].
    apply andb_true_iff in Hv as [Hv1 Hv2]. apply Nat.eqb_eq in Hv1.
    rewrite line_feeds_app, (Hx ind k Hind Hv1 Hv2), (IHk Hv3). done.
Qed.

(** X13. The payload is logged with one line for each key, the keys of
    nested objects included and the elements of arrays left out, as
    long as no key and no value printed with [%v] brings a line feed of
    its own. *)
Theorem prettyPrintJSON_line_per_key
    (sprint_v : json → string) (data : list (string * json))
    (indent : string) :
  Part000.line_feeds indent = 0%nat →
  Part000.one_line sprint_v (JObject data) = true →
  Part000.line_feeds (Part000.prettyPrintJSON sprint_v data indent)
    = Part000.keys (JObject data).
Proof.
  intros Hi. induction data as [|[k x] data IH]; [done|].
  cbn [Part000.one_line Part000.prettyPrintJSON Part000.keys] in *.
  intros Hv. apply andb_true_iff in Hv as [Hv Hv3].
  apply andb_true_iff in Hv as [Hv1 Hv2]. apply Nat.eqb_eq in Hv1.
  rewrite line_feeds_app, (prettyPrintEntry_lines _ _ _ _ Hi Hv1 Hv2).
  by rewrite (IH Hv3).
Qed.

Lemma prettyPrintJSON_line_per_key_witness :
  Part000.line_feeds
    (Part000.prettyPrintJSON (λ _, "v") (Part000.Payload ping) "║   ")
    = 5%nat.
Proof.
  apply (prettyPrintJSON_line_per_key (λ _, "v") (Part000.Payload ping)
           "║   "); vm_compute; reflexivity.
Defined.

(** ** The accept loop after its [return] *)

Lemma step_acc_returned w l w' :
  step w l w' → Invariant w → acc_returned (acc w) = true → acc w' = acc w.
Proof.
  intros H I. pose proof (inv_started w I) as Hst. revert Hst.
  step_inv H; cbn; try done.
  all: try (by intros _ ?; congruence).
  intros [_ ->]. done.
Qed.

Lemma run_acc_returned w tr w' :
  run w tr w' → Invariant w → acc_returned (acc w) = true → acc w' = acc w.
Proof.
  induction 1 as [|w tr w1 l w2 Hrun IH Hs]; [done|]. intros I Ha.
  rewrite <- (IH I Ha).
  apply (step_acc_returned _ _ _ Hs); [by apply (invariant_run w tr)|].
  by rewrite (IH I Ha).
Qed.

(** X15. Once the accept loop has returned it stays so.  Returning
    from the outer [select] it holds no slot of the semaphore;
    returning because [Accept] failed after the signal it keeps the
    slot it took for the connection: the slots taken are then those of
    the sessions, and one. *)
Theorem accept_loop_return cfg tr w tr' w' :
  execution cfg tr w → acc_returned (acc w) = true → run w tr' w' →
  acc w' = acc w ∧ shutdown w' = true ∧
  connSem w' =
    (active_sessions w' +
       match acc w with AccReturnedAccept => 1 | _ => 0 end)%nat.
Proof.
  intros He Ha Hrun. pose proof (execution_invariant _ _ _ He) as I.
  pose proof (invariant_run _ _ _ Hrun I) as I'.
  pose proof (run_acc_returned _ _ _ Hrun I Ha) as Hacc.
  split; [done|]. split.
  - apply (inv_returned w' I'). by rewrite Hacc.
  - rewrite (inv_sem w' I'). unfold outstanding. rewrite Hacc.
    by destruct (acc w).
Qed.

Lemma accept_loop_return_witness :
  ∃ w, execution cfg2 shut_in_accept w ∧ acc w = AccReturnedAccept ∧
       connSem w = 1%nat ∧ active_sessions w = 0%nat.
Proof.
  eexists. split; [apply run_trace_execution; vm_compute; reflexivity|].
  split; [vm_compute; reflexivity|].
  match goal with |- connSem ?w = _ ∧ _ =>
    assert (He : execution cfg2 shut_in_accept w)
      by (apply run_trace_execution; vm_compute; reflexivity);
    destruct (accept_loop_return cfg2 _ w [] w He eq_refl (run_nil w))
      as (_ & _ & Hs)
  end.
  split; [|vm_compute; reflexivity]. rewrite Hs. vm_compute. reflexivity.
Defined.

